(** * CompositeFunction: the function graph, its traversal and the
      derived operations of [Source/CNTKv2LibraryDll/CompositeFunction.h]

    The development embeds the graph walk [Traverse], the operations built
    on it ([Collect], [Create], [DetermineInputs], [OnPlaceholdersReplaced])
    and the two dynamic-axis helpers at the end of the header, and proves
    the properties the specification states about them.  The header only
    declares [Forward], [Backward] and [GetComputationNetwork]; these are
    modelled from the specification and marked as such. *)

From stdpp Require Import gmap strings list fin_maps relations pretty.

#[local] Set Warnings "-clear-no-such-hyp".

(** ** Data model *)

(** A [FunctionPtr] is the address of a primitive [Function] object. *)
Abbreviation FunctionPtr := nat (only parsing).

(** The kinds of a [Variable] (CNTKLibrary.h, [VariableKind]). *)
Inductive VariableKind :=
  | InputKind | OutputKind | ParameterKind | ConstantKind | PlaceholderKind.

(** A [Variable] is a handle on shared data fields; two handles are equal
    when they denote the same fields, so a variable is identified by the
    fields themselves ([m_uid] is unique per variable).  [m_ownerFunction]
    is the back-reference of an Output to the function that produces it; the
    code reads it for Output variables only. *)
Record CNTKVariable := mkVariable {
  m_uid : nat;
  m_varKind : VariableKind;
  m_ownerFunction : FunctionPtr
}.

Definition IsOutput (v : CNTKVariable) : bool :=
  match m_varKind v with OutputKind => true | _ => false end.

Definition Owner (v : CNTKVariable) : FunctionPtr := m_ownerFunction v.

#[global] Instance VariableKind_eq_dec : EqDecision VariableKind.
Proof. solve_decision. Defined.

#[global] Instance VariableKind_countable : Countable VariableKind.
Proof.
  refine (inj_countable'
    (λ k, match k with
          | InputKind => 0 | OutputKind => 1 | ParameterKind => 2
          | ConstantKind => 3 | PlaceholderKind => 4 end)
    (λ n, match n with
          | 0 => InputKind | 1 => OutputKind | 2 => ParameterKind
          | 3 => ConstantKind | _ => PlaceholderKind end) _).
  by intros [].
Defined.

#[global] Instance CNTKVariable_eq_dec : EqDecision CNTKVariable.
Proof. solve_decision. Defined.

#[global] Instance CNTKVariable_countable : Countable CNTKVariable.
Proof.
  refine (inj_countable'
    (λ v, (m_uid v, m_varKind v, m_ownerFunction v))
    (λ t, mkVariable t.1.1 t.1.2 t.2) _).
  by intros [].
Defined.

(** The function graph: [Inputs()] of every function object, as a map with
    finite support.  A function that the map does not list has no inputs. *)
Abbreviation FunctionGraph := (gmap nat (list CNTKVariable)) (only parsing).

Definition Inputs (g : FunctionGraph) (f : FunctionPtr) : list CNTKVariable :=
  default [] (g !! f).

(** [edge g f c]: some input of [f] is an Output owned by [c]. *)
Definition edge (g : FunctionGraph) (f c : FunctionPtr) : Prop :=
  ∃ v, v ∈ Inputs g f ∧ IsOutput v = true ∧ Owner v = c.

(** The reachable closure of a root: the root and everything reached from
    it along Output->Owner edges. *)
Definition reachable (g : FunctionGraph) : relation nat := rtc (edge g).

Definition acyclic (g : FunctionGraph) : Prop := ∀ f, ¬ tc (edge g) f f.

(** A ranking that strictly decreases along every edge; decidable, and
    enough for acyclicity. *)
Definition topo_ranked (rank : FunctionPtr → nat) (g : FunctionGraph) : Prop :=
  map_Forall (λ f ins,
    Forall (λ v, IsOutput v = true → rank (Owner v) < rank f) ins) g.

(** ** Traverse (lines 104-127) *)

Section Traverse.
Context {St : Type}.
Variable g : FunctionGraph.
(** The functor is a closure over mutable captures; [St] is what it
    captures, and a call maps the captured state to the new one.  It has
    no access to the visited set or to the graph. *)
Variable functor : FunctionPtr → St → St.

(** The [for] loop over [rootFunctionInputs]; [rec] is the recursive
    call. *)
Definition TraverseInputs
    (rec : FunctionPtr → gset nat → St → option (gset nat * St)) :
    list CNTKVariable → gset nat → St → option (gset nat * St) :=
  fix loop rootFunctionInputs visitedFunctions st :=
    match rootFunctionInputs with
    | [] => Some (visitedFunctions, st)
    | rootInput :: rest =>
        if IsOutput rootInput
           && bool_decide (Owner rootInput ∉ visitedFunctions)
        then
          match rec (Owner rootInput) visitedFunctions st with
          | Some (visitedFunctions', st') => loop rest visitedFunctions' st'
          | None => None
          end
        else loop rest visitedFunctions st
    end.

(** [Traverse(rootFunction, visitedFunctions, functor)].  The recursion
    of the source is not structural; [fuel] bounds its depth and [None]
    means the bound was reached. *)
Fixpoint Traverse (fuel : nat) (rootFunction : FunctionPtr)
    (visitedFunctions : gset nat) (st : St) : option (gset nat * St) :=
  match fuel with
  | 0 => None
  | S fuel' =>
      TraverseInputs (Traverse fuel') (Inputs g rootFunction)
        ({[rootFunction]} ∪ visitedFunctions) (functor rootFunction st)
  end.
End Traverse.

(** Recursion depth that [Traverse] never exceeds on [g]: every nested call
    is on a function that is not yet visited. *)
Definition TraverseFuel (g : FunctionGraph) : nat := S (S (size g)).

(** [Traverse(rootFunction, functor)]: the overload that starts from an
    empty visited set (lines 104-109). *)
Definition Traverse0 {St} (g : FunctionGraph) (functor : FunctionPtr → St → St)
    (rootFunction : FunctionPtr) (st : St) : option St :=
  snd <$> Traverse g functor (TraverseFuel g) rootFunction ∅ st.

(** The functor that records the functions it is invoked on, in order. *)
Definition record_call (f : FunctionPtr) (calls : list nat) : list nat :=
  calls ++ [f].

(** ** Collect, Create (lines 67-75, 152-155, 164-169) *)

(** [Collect]: [Traverse] with the functor that does nothing. *)
Definition Collect (g : FunctionGraph) (rootFunction : FunctionPtr)
    (functions : gset nat) : option (gset nat) :=
  fst <$> Traverse g (λ _ (u : unit), u) (TraverseFuel g) rootFunction functions tt.

(** [DeviceDescriptor]: which compute device; compared, never inspected. *)
Inductive DeviceKind := CPU | GPU.

Record DeviceDescriptor := mkDevice {
  m_deviceId : nat;
  m_deviceType : DeviceKind
}.

#[global] Instance DeviceKind_eq_dec : EqDecision DeviceKind.
Proof. solve_decision. Defined.

#[global] Instance DeviceDescriptor_eq_dec : EqDecision DeviceDescriptor.
Proof. solve_decision. Defined.

(** Modelled from the spec: the compiled network ([ComputationNetwork.h] is
    not part of this header).  The spec describes it as an opaque,
    device-bound executable built for one (backprop-roots, outputs)
    configuration; the model keeps its device, the functions it was built
    from and the current forward timestamp of every variable's node.  The
    configuration is what [m_currentBackpropRoots] and [m_currentOutputs]
    of the composite record. *)
Record ComputationNetwork := mkNetwork {
  net_device : DeviceDescriptor;
  net_functions : gset nat;
  net_timeStamp : CNTKVariable → N
}.

(** The data members of [CompositeFunction] (lines 240-271) that the
    operations below read or write, with the root function and the names
    held by the [Function] base. *)
Record CompositeFunction := mkCompositeFunction {
  RootFunction : FunctionPtr;
  m_allPrimitiveFunctions : gset nat;
  m_name : string;
  m_uidCF : string;
  m_computationNetwork : option ComputationNetwork;
  m_currentBackpropRoots : gset CNTKVariable;
  m_currentOutputs : gset CNTKVariable;
  m_networkMatricesAllocated : bool
}.

(** [Create]: collect from the root into an empty set and construct the
    composite with it; the constructor (lines 152-155) sets
    [m_networkMatricesAllocated] to false and leaves the other members
    empty. *)
Definition Create (g : FunctionGraph) (rootFunction : FunctionPtr)
    (name uid : string) : option CompositeFunction :=
  visitedFunctions ← Collect g rootFunction ∅;
  Some (mkCompositeFunction rootFunction visitedFunctions name uid
          None ∅ ∅ false).

(** ** DetermineInputs (lines 157-162, 171-190) *)

(** The body of the lambda: one pass over [f->Inputs()], on the captured
    [inputs] and [uniqueInputs]. *)
Definition DetermineInputs_step (acc : list CNTKVariable * gset CNTKVariable)
    (input : CNTKVariable) : list CNTKVariable * gset CNTKVariable :=
  if negb (IsOutput input) && bool_decide (input ∉ acc.2)
  then (acc.1 ++ [input], {[input]} ∪ acc.2)
  else acc.

Definition DetermineInputs_functor (g : FunctionGraph) (f : FunctionPtr)
    (acc : list CNTKVariable * gset CNTKVariable) :
    list CNTKVariable * gset CNTKVariable :=
  foldl DetermineInputs_step acc (Inputs g f).

Definition DetermineInputs (g : FunctionGraph) (rootFunction : FunctionPtr)
    (visitedFunctions : gset nat) : option (list CNTKVariable) :=
  '(_, acc) ← Traverse g (DetermineInputs_functor g) (TraverseFuel g)
                rootFunction visitedFunctions ([], ∅);
  Some acc.1.

(** [DetermineInputs()] of a composite: from its root, nothing visited. *)
Definition DetermineInputs0 (g : FunctionGraph) (cf : CompositeFunction) :
    option (list CNTKVariable) :=
  DetermineInputs g (RootFunction cf) ∅.

(** ** Errors *)

(** What a call can raise: the exception of [unordered_map::at], the two
    error helpers of the library, and the two conditions that the
    specification makes the orchestrator report (a stale backward state
    and a device other than the compiled network's). *)
Inductive Exception :=
  | out_of_range
  | LogicError (msg : string)
  | InvalidArgument (msg : string)
  | StaleBackPropState
  | DeviceMismatch.

Inductive Result (A : Type) :=
  | Ok (a : A)
  | Throw (e : Exception)
  | OutOfFuel.
Arguments Ok {A} a.
Arguments Throw {A} e.
Arguments OutOfFuel {A}.

Definition Result_bind {A B} (r : Result A) (k : A → Result B) : Result B :=
  match r with
  | Ok a => k a
  | Throw e => Throw e
  | OutOfFuel => OutOfFuel
  end.

Notation "x <-! r ;; k" := (Result_bind r (λ x, k))
  (at level 100, r at next level, right associativity).

Definition of_fuel {A} (o : option A) : Result A :=
  match o with Some a => Ok a | None => OutOfFuel end.

(** ** OnPlaceholdersReplaced (lines 130-150) *)

Definition set_allPrimitiveFunctions (cf : CompositeFunction)
    (fs : gset nat) : CompositeFunction :=
  mkCompositeFunction (RootFunction cf) fs (m_name cf) (m_uidCF cf)
    (m_computationNetwork cf) (m_currentBackpropRoots cf)
    (m_currentOutputs cf) (m_networkMatricesAllocated cf).

(** One iteration of the loop over [replacedPlaceholders]. *)
Definition OnPlaceholdersReplaced_step (g : FunctionGraph)
    (placeholderReplacements : gmap CNTKVariable CNTKVariable)
    (allPrimitiveFunctions : gset nat) (replacedPlaceholder : CNTKVariable) :
    Result (gset nat) :=
  match placeholderReplacements !! replacedPlaceholder with
  | None => Throw out_of_range
  | Some replacingVariable =>
      if IsOutput replacingVariable then
        visitedFunctions2 <-! of_fuel (Collect g (Owner replacingVariable) ∅) ;;
        Ok (allPrimitiveFunctions ∪ visitedFunctions2)
      else Ok allPrimitiveFunctions
  end.

Fixpoint OnPlaceholdersReplaced_loop (g : FunctionGraph)
    (placeholderReplacements : gmap CNTKVariable CNTKVariable)
    (replaced : list CNTKVariable) (allPrimitiveFunctions : gset nat) :
    Result (gset nat) :=
  match replaced with
  | [] => Ok allPrimitiveFunctions
  | replacedPlaceholder :: rest =>
      fs <-! OnPlaceholdersReplaced_step g placeholderReplacements
               allPrimitiveFunctions replacedPlaceholder ;;
      OnPlaceholdersReplaced_loop g placeholderReplacements rest fs
  end.

(** [g] is the graph as the substitution left it.  The iteration order of
    the unordered set is the order of [elements].  When [at] throws, the
    source leaves [m_allPrimitiveFunctions] extended by the iterations
    already done; the model returns the exception alone. *)
Definition OnPlaceholdersReplaced (g : FunctionGraph) (cf : CompositeFunction)
    (placeholderReplacements : gmap CNTKVariable CNTKVariable)
    (replacedPlaceholders : gset CNTKVariable) : Result CompositeFunction :=
  fs <-! OnPlaceholdersReplaced_loop g placeholderReplacements
           (elements replacedPlaceholders) (m_allPrimitiveFunctions cf) ;;
  Ok (set_allPrimitiveFunctions cf fs).

(** ** Dynamic-axis names (lines 279-304) *)

(** What the two helpers use of [Axis] (CNTKLibrary.h) and of the two name
    constants, whose values are given in CompositeFunction.cpp: the
    constructor from a name, [Name()], [operator==], the two default axes
    and the two reserved names.  They are taken as parameters. *)
Class AxisAPI := {
  Axis : Type;
  AxisOfName : string → Axis;
  Name : Axis → string;
  Axis_eqb : Axis → Axis → bool;
  DefaultDynamicAxis : Axis;
  DefaultBatchAxis : Axis;
  InternalDefaultDynamicAxisName : string;
  InternalNoSequenceAxisName : string
}.

(** [s.substr(pos, n)] for [pos] within the string: at most [n] characters
    from [pos] on. *)
Definition substr (s : string) (pos n : nat) : string :=
  String.substring pos n s.

Section DynamicAxes.
Context `{AxisAPI}.

(** [operator==] of [std::vector<Axis>]: same size, equal element by
    element. *)
Fixpoint Axes_eqb (a b : list Axis) : bool :=
  match a, b with
  | [], [] => true
  | x :: a', y :: b' => Axis_eqb x y && Axes_eqb a' b'
  | _, _ => false
  end.

Definition DynamicAxesFromInternalDynamicAxisName
    (internalDynamicAxisName : string) : list Axis :=
  if String.eqb
       (substr internalDynamicAxisName 0
          (String.length InternalDefaultDynamicAxisName))
       InternalDefaultDynamicAxisName
  then [DefaultDynamicAxis; DefaultBatchAxis]
  else if String.eqb
       (substr internalDynamicAxisName 0
          (String.length InternalNoSequenceAxisName))
       InternalNoSequenceAxisName
  then [DefaultBatchAxis]
  else [AxisOfName internalDynamicAxisName; DefaultBatchAxis].

Definition InternalDynamicAxisNameFromDynamicAxes
    (dynamicAxes : list Axis) : Result string :=
  match dynamicAxes with
  | [] => Throw (LogicError "Empty dynamic axes set")
  | axis0 :: _ =>
      if Axes_eqb dynamicAxes [DefaultBatchAxis]
      then Ok InternalNoSequenceAxisName
      else if Axes_eqb dynamicAxes [DefaultDynamicAxis; DefaultBatchAxis]
      then Ok InternalDefaultDynamicAxisName
      else Ok (Name axis0)
  end.
End DynamicAxes.

(** An instance of the interface: an axis is its name, the reserved names
    are an asterisk and a double-underscore name. *)
Definition NamedAxes : AxisAPI := {|
  Axis := string;
  AxisOfName := λ n, n;
  Name := λ a, a;
  Axis_eqb := String.eqb;
  DefaultDynamicAxis := "defaultDynamicAxis";
  DefaultBatchAxis := "defaultBatchAxis";
  InternalDefaultDynamicAxisName := "*";
  InternalNoSequenceAxisName := "__noSequenceAxis"
|}.

(** ** Forward and Backward (lines 16-31, 77-84, 198-202, 238) *)

(** [CNTKBackPropState] (lines 16-31): the function and the device of the
    [BackPropState] base, and the forward timestamps of the backprop roots
    when the state was made.  A [uint64_t] is an [N] below [2^64]. *)
Record CNTKBackPropState := mkBackPropState {
  bp_Function : FunctionPtr;
  bp_Device : DeviceDescriptor;
  BackpropRootsForwardTimeStamps : gmap CNTKVariable N
}.

(** The compiled network's numeric side, which the header only names:
    values, construction of the internal nodes (which may fail, for
    instance on a cyclic graph), forward execution (output values and the
    timestamps it leaves) and backward execution. *)
Class ExecutionKernel := {
  Value : Type;
  kernel_build : gset nat → FunctionPtr → gset CNTKVariable →
                 gset CNTKVariable → DeviceDescriptor → bool →
                 Exception + (CNTKVariable → N);
  kernel_forward : ComputationNetwork → gmap CNTKVariable Value →
                   gset CNTKVariable →
                   gmap CNTKVariable Value * (CNTKVariable → N);
  kernel_backward : ComputationNetwork → gmap CNTKVariable Value →
                    gset CNTKVariable → gmap CNTKVariable Value
}.

Definition set_network (cf : CompositeFunction) (net : ComputationNetwork)
    (backpropRoots outputs : gset CNTKVariable) (allocated : bool) :
    CompositeFunction :=
  mkCompositeFunction (RootFunction cf) (m_allPrimitiveFunctions cf)
    (m_name cf) (m_uidCF cf) (Some net) backpropRoots outputs allocated.

(** Whether [GetComputationNetwork] built the first network, returned the
    cached one, or replaced the cached one by a network built for the
    configuration now requested. *)
Inductive NetworkOrigin := Built | Reused | Rebuilt.

Section Orchestrator.
Context `{ExecutionKernel}.

(** Modelled from the spec: construction of the compiled network for one
    configuration, the job of the compiled-network collaborator (section
    6, [build]); a construction error leaves the composite as it was. *)
Definition BuildComputationNetwork (cf : CompositeFunction)
    (device : DeviceDescriptor) (backpropRoots outputs : gset CNTKVariable)
    (allocateNetworkMatrices : bool) (origin : NetworkOrigin) :
    Result (CompositeFunction * ComputationNetwork * NetworkOrigin) :=
  match kernel_build (m_allPrimitiveFunctions cf) (RootFunction cf)
          backpropRoots outputs device allocateNetworkMatrices with
  | inl e => Throw e
  | inr stamps =>
      let net := mkNetwork device (m_allPrimitiveFunctions cf) stamps in
      Ok (set_network cf net backpropRoots outputs allocateNetworkMatrices,
          net, origin)
  end.

(** Modelled from the spec: [GetComputationNetwork], declared at lines
    198-202 and defined in CompositeFunction.cpp.  Sections 2, 4.3 and 9:
    with no compiled network, build one for the requested configuration;
    with one, a device other than the network's fails explicitly; a
    backprop-roots set or outputs set other than the recorded one is never
    served from the cache: the network is rebuilt for the requested
    configuration, and the caller is told so by the origin returned; an
    equal configuration returns the cached network, and storage allocated
    once stays allocated. *)
Definition GetComputationNetwork (cf : CompositeFunction)
    (device : DeviceDescriptor) (backpropRoots outputs : gset CNTKVariable)
    (allocateNetworkMatrices : bool) :
    Result (CompositeFunction * ComputationNetwork * NetworkOrigin) :=
  match m_computationNetwork cf with
  | None =>
      BuildComputationNetwork cf device backpropRoots outputs
        allocateNetworkMatrices Built
  | Some net =>
      if bool_decide (net_device net ≠ device) then Throw DeviceMismatch
      else if bool_decide (backpropRoots ≠ m_currentBackpropRoots cf
                           ∨ outputs ≠ m_currentOutputs cf)
      then BuildComputationNetwork cf device backpropRoots outputs
             allocateNetworkMatrices Rebuilt
      else Ok (set_network cf net backpropRoots outputs
                 (m_networkMatricesAllocated cf || allocateNetworkMatrices),
               net, Reused)
  end.

(** Modelled from the spec: [GetCurrentBackpropRootsTimeStamps], declared
    at line 238: the current forward timestamp of each current backprop
    root. *)
Definition GetCurrentBackpropRootsTimeStamps (cf : CompositeFunction) :
    gmap CNTKVariable N :=
  match m_computationNetwork cf with
  | None => ∅
  | Some net =>
      set_to_map (λ root, (root, net_timeStamp net root))
        (m_currentBackpropRoots cf)
  end.

Definition IsPlaceholder (v : CNTKVariable) : bool :=
  match m_varKind v with PlaceholderKind => true | _ => false end.

Definition IsInput (v : CNTKVariable) : bool :=
  match m_varKind v with InputKind => true | _ => false end.

(** Modelled from the spec: the part of [Forward] after its checks
    (section 4.4): the network comes from [GetComputationNetwork] for
    (device, retained roots, outputs), cached or built; it is run, the
    values of the requested outputs are returned, and when roots are
    retained the state returned carries this function, the device and the
    timestamps of the roots. *)
Definition Forward_run (this : FunctionPtr) (cf : CompositeFunction)
    (arguments : gmap CNTKVariable Value) (outputs : gset CNTKVariable)
    (computeDevice : DeviceDescriptor)
    (outputsToRetainBackwardStateFor : gset CNTKVariable) :
    Result (CompositeFunction * gmap CNTKVariable Value
            * option CNTKBackPropState) :=
  r <-! GetComputationNetwork cf computeDevice
          outputsToRetainBackwardStateFor outputs true ;;
  let '(cf1, net, _) := r in
  let '(values, stamps) := kernel_forward net arguments outputs in
  let net' := mkNetwork (net_device net) (net_functions net) stamps in
  let cf2 := set_network cf1 net' (m_currentBackpropRoots cf1)
               (m_currentOutputs cf1) (m_networkMatricesAllocated cf1) in
  let state :=
    if bool_decide (outputsToRetainBackwardStateFor = ∅) then None
    else Some (mkBackPropState this computeDevice
                 (GetCurrentBackpropRootsTimeStamps cf2)) in
  Ok (cf2, values, state).

(** Modelled from the spec: [Forward], declared at lines 77-80.  Section
    4.4: placeholders must be resolved; every argument is a declared
    input and every Input variable has a value; every requested output is
    produced by an owned function; then the network is obtained and run
    ([Forward_run]). *)
Definition Forward (this : FunctionPtr) (g : FunctionGraph)
    (cf : CompositeFunction) (arguments : gmap CNTKVariable Value)
    (outputs : gset CNTKVariable) (computeDevice : DeviceDescriptor)
    (outputsToRetainBackwardStateFor : gset CNTKVariable) :
    Result (CompositeFunction * gmap CNTKVariable Value
            * option CNTKBackPropState) :=
  inputs <-! of_fuel (DetermineInputs0 g cf) ;;
  if existsb IsPlaceholder inputs
  then Throw (LogicError "unresolved placeholders")
  else if negb (bool_decide (dom arguments ⊆ list_to_set inputs))
  then Throw (InvalidArgument "argument is not an input of the function")
  else if negb (forallb (λ v, bool_decide (v ∈ dom arguments))
                  (filter (λ v, IsInput v = true) inputs))
  then Throw (InvalidArgument "missing value for an input")
  else if negb (bool_decide (set_Forall
                  (λ o, IsOutput o = true
                        ∧ Owner o ∈ m_allPrimitiveFunctions cf) outputs))
  then Throw (InvalidArgument "output is not reachable from the root")
  else Forward_run this cf arguments outputs computeDevice
         outputsToRetainBackwardStateFor.

(** The checks of [Forward] on its arguments and outputs pass. *)
Definition Forward_checks (g : FunctionGraph) (cf : CompositeFunction)
    (arguments : gmap CNTKVariable Value) (outputs : gset CNTKVariable) :
    Prop :=
  ∃ inputs,
    DetermineInputs0 g cf = Some inputs
    ∧ existsb IsPlaceholder inputs = false
    ∧ dom arguments ⊆ list_to_set inputs
    ∧ forallb (λ v, bool_decide (v ∈ dom arguments))
        (filter (λ v, IsInput v = true) inputs) = true
    ∧ set_Forall (λ o, IsOutput o = true
                       ∧ Owner o ∈ m_allPrimitiveFunctions cf) outputs.

(** Modelled from the spec: [Backward], declared at lines 82-84.  Section
    4.4: the state must come from a forward call on this function and
    device and must be fresh, that is, every root of its snapshot still
    has the timestamp of the snapshot; root gradients are accepted for
    retained roots only and gradients are returned for inputs of the
    function only. *)
Definition Backward (this : FunctionPtr) (g : FunctionGraph)
    (cf : CompositeFunction) (state : CNTKBackPropState)
    (rootGradientValues : gmap CNTKVariable Value)
    (backPropagatedGradientValuesForInputs : gset CNTKVariable) :
    Result (gmap CNTKVariable Value) :=
  match m_computationNetwork cf with
  | None => Throw (InvalidArgument "backprop state of another function")
  | Some net =>
      if bool_decide (bp_Function state ≠ this)
      then Throw (InvalidArgument "backprop state of another function")
      else if bool_decide (bp_Device state ≠ net_device net)
      then Throw DeviceMismatch
      else if negb (bool_decide (map_Forall
                      (λ root ts, net_timeStamp net root = ts)
                      (BackpropRootsForwardTimeStamps state)))
      then Throw StaleBackPropState
      else if negb (bool_decide
                      (dom rootGradientValues
                         ⊆ dom (BackpropRootsForwardTimeStamps state)))
      then Throw (InvalidArgument "gradient for a root that is not retained")
      else
        inputs <-! of_fuel (DetermineInputs0 g cf) ;;
        if negb (bool_decide (backPropagatedGradientValuesForInputs
                                ⊆ list_to_set inputs))
        then Throw (InvalidArgument "gradient requested for a non-input")
        else Ok (kernel_backward net rootGradientValues
                   backPropagatedGradientValuesForInputs)
  end.
End Orchestrator.

(** ** Vocabulary of the statements *)

(** The functions the functor is invoked on, in order, by
    [Traverse(rootFunction, visitedFunctions, functor)], with the final
    visited set. *)
Definition visit_order (g : gmap nat (list CNTKVariable)) (root : nat)
    (V : gset nat) : option (gset nat * list nat) :=
  Traverse g record_call (TraverseFuel g) root V [].

(** The input variables in the order the traversal meets them: function by
    function in visiting order, each function's inputs as listed. *)
Definition encountered_inputs (g : gmap nat (list CNTKVariable))
    (calls : list nat) : list CNTKVariable :=
  calls ≫= Inputs g.

(** What the captured [inputs] and [uniqueInputs] hold after the sequence
    [E] of variables went through the lambda's loop. *)
Definition DetermineInputs_inv (E : list CNTKVariable)
    (acc : list CNTKVariable * gset CNTKVariable) : Prop :=
  acc.2 = list_to_set acc.1
  ∧ NoDup acc.1
  ∧ (∀ v, v ∈ acc.1 ↔ v ∈ E ∧ IsOutput v = false)
  ∧ (∀ i j v w, i < j → acc.1 !! i = Some v → acc.1 !! j = Some w →
       ∃ a, E !! a = Some v ∧ ∀ b, b ≤ a → E !! b ≠ Some w).

(** Functions of the graph that are not yet visited. *)
Definition unvisited (g : gmap nat (list CNTKVariable)) (V : gset nat) : nat :=
  size (dom g ∖ V).

(** Two runs agree on the visited set and end in related states. *)
Definition related_runs {St1 St2} (R : St1 → St2 → Prop)
    (o1 : option (gset nat * St1)) (o2 : option (gset nat * St2)) : Prop :=
  match o1, o2 with
  | Some (V1, s1), Some (V2, s2) => V1 = V2 ∧ R s1 s2
  | None, None => True
  | _, _ => False
  end.

(** Every function of [l] has a consumer in [seen] or earlier in [l]. *)
Fixpoint parents_first (g : gmap nat (list CNTKVariable)) (seen : gset nat)
    (l : list nat) : Prop :=
  match l with
  | [] => True
  | x :: l' => (∃ p, p ∈ seen ∧ edge g p x) ∧ parents_first g ({[x]} ∪ seen) l'
  end.

(** The outcome of [Traverse] from [root] with [V] visited: [new] are
    the functions the functor is invoked on after [root]. *)
Definition Traverse_post (g : gmap nat (list CNTKVariable)) (root : nat)
    (V : gset nat) (new : list nat) (V' : gset nat) : Prop :=
  V' = {[root]} ∪ V ∪ list_to_set new
  ∧ NoDup new
  ∧ (∀ x, x ∈ new → x ∉ {[root]} ∪ V)
  ∧ parents_first g {[root]} new
  ∧ (∀ x c, x = root ∨ x ∈ new → edge g x c → c ∈ V').

(** The outcome of the loop over the inputs [ins] of [parent]. *)
Definition TraverseInputs_post (g : gmap nat (list CNTKVariable))
    (parent : nat) (ins : list CNTKVariable) (W : gset nat)
    (new : list nat) (W' : gset nat) : Prop :=
  W' = W ∪ list_to_set new
  ∧ NoDup new
  ∧ (∀ x, x ∈ new → x ∉ W)
  ∧ parents_first g {[parent]} new
  ∧ (∀ v, v ∈ ins → IsOutput v = true → Owner v ∈ W')
  ∧ (∀ x c, x ∈ new → edge g x c → c ∈ W').

(** [f] is in the closure under some replaced placeholder of [l] whose
    replacement is an Output. *)
Definition grafted (g : gmap nat (list CNTKVariable))
    (placeholderReplacements : gmap CNTKVariable CNTKVariable)
    (l : list CNTKVariable) (f : nat) : Prop :=
  ∃ p r, p ∈ l ∧ placeholderReplacements !! p = Some r
         ∧ IsOutput r = true ∧ reachable g (Owner r) f.


(** ** Example graphs *)

(** The graph of the specification's scenario: function 1 is
    [Add(x, y) -> z], function 2 is [Mul(z, w) -> out]. *)
Definition var_x : CNTKVariable := mkVariable 1 InputKind 0.
Definition var_y : CNTKVariable := mkVariable 2 InputKind 0.
Definition var_w : CNTKVariable := mkVariable 3 ParameterKind 0.
Definition var_z : CNTKVariable := mkVariable 4 OutputKind 1.
Definition var_out : CNTKVariable := mkVariable 5 OutputKind 2.

Definition add_mul_graph : gmap nat (list CNTKVariable) :=
  {[ 1 := [var_x; var_y]; 2 := [var_z; var_w] ]}.

(** A diamond: function 4 reads the outputs of 2 and 3, which both read
    the output of 1; [x] is read by 1 and by 4. *)
Definition out_of (f : nat) : CNTKVariable := mkVariable (10 + f) OutputKind f.

Definition diamond_graph : gmap nat (list CNTKVariable) :=
  {[ 1 := [var_x; var_w];
     2 := [out_of 1; var_y];
     3 := [var_y; out_of 1];
     4 := [out_of 2; var_x; out_of 3; out_of 2] ]}.

(** Two functions that read each other's output. *)
Definition cycle_graph : gmap nat (list CNTKVariable) :=
  {[ 1 := [out_of 2]; 2 := [out_of 1] ]}.

(** The graph after a placeholder [p] read by function 5 was replaced by the
    output of function 2, which reads the output of function 1; before, the
    composite rooted at 5 owned function 5 alone. *)
Definition var_p : CNTKVariable := mkVariable 6 PlaceholderKind 0.

Definition before_graft_graph : gmap nat (list CNTKVariable) :=
  {[ 5 := [var_p; var_x] ]}.

Definition grafted_graph : gmap nat (list CNTKVariable) :=
  {[ 1 := [var_x; var_w]; 2 := [out_of 1; var_y]; 5 := [out_of 2; var_x] ]}.

Definition graft_composite : CompositeFunction :=
  mkCompositeFunction 5 {[5]} "" "" None ∅ ∅ false.

(** A kernel for the examples: values are integers, construction always
    succeeds with all timestamps at zero, and a forward run returns no
    values and advances the timestamp of every requested output. *)
Definition counting_kernel : ExecutionKernel := {|
  Value := Z;
  kernel_build := λ _ _ _ _ _ _, inr (λ _, 0%N);
  kernel_forward := λ net _ outputs,
    (∅, λ v, if bool_decide (v ∈ outputs)
             then N.succ (net_timeStamp net v) else net_timeStamp net v);
  kernel_backward := λ _ rootGradients _, rootGradients
|}.

(** The composite over the Add/Mul graph, as [Create] makes it. *)
Definition add_mul_composite : CompositeFunction :=
  mkCompositeFunction 2 {[1; 2]} "" "" None ∅ ∅ false.

Definition add_mul_arguments : gmap CNTKVariable Z :=
  {[ var_x := 2%Z; var_y := 3%Z; var_w := 5%Z ]}.

(** ** NextAutoGeneratedDynamicAxis (lines 52-64) *)

(** [std::to_wstring] of an unsigned value: its decimal digits. *)
Definition to_wstring (n : N) : string := pretty n.

Definition s_autoGeneratedDynamicAxisNamePrefix : string :=
  "autoGeneratedDynamicAxis_".

(** [unsigned int] has 32 bits; [s_nextAutoGeneratedDynamicAxis++] yields
    the old value and stores its successor modulo [2^32]. *)
Definition UINT_MODULUS : N := 4294967296.

(** The static counter is passed in and returned. *)
Definition NextAutoGeneratedDynamicAxis `{AxisAPI}
    (s_nextAutoGeneratedDynamicAxis : N) : Axis * N :=
  (AxisOfName (s_autoGeneratedDynamicAxisNamePrefix
               +:+ to_wstring s_nextAutoGeneratedDynamicAxis),
   ((s_nextAutoGeneratedDynamicAxis + 1) mod UINT_MODULUS)%N).

(** [n] calls in a row. *)
Fixpoint NextAutoGeneratedDynamicAxes `{AxisAPI} (n : nat) (counter : N) :
    list Axis * N :=
  match n with
  | 0 => ([], counter)
  | S n' =>
      let '(axis, counter1) := NextAutoGeneratedDynamicAxis counter in
      let '(axes, counter2) := NextAutoGeneratedDynamicAxes n' counter1 in
      (axis :: axes, counter2)
  end.

(** ** More vocabulary *)

(** Reachable from [root] along edges whose targets are outside [V]. *)
Definition reachable_avoiding (g : gmap nat (list CNTKVariable))
    (V : gset nat) : relation nat :=
  rtc (λ a b, edge g a b ∧ b ∉ V).

(** [W] contains the owner of every Output input of its functions. *)
Definition edge_closed (g : gmap nat (list CNTKVariable)) (W : gset nat) : Prop :=
  set_Forall (λ x,
    Forall (λ v, IsOutput v = true → Owner v ∈ W) (Inputs g x)) W.

(** * Properties *)

(** ** Fuel: monotonicity and termination *)

Section Unvisited.
Variable g : gmap nat (list CNTKVariable).

Lemma unvisited_mono V W : V ⊆ W → unvisited g W ≤ unvisited g V.
Proof. intros HVW. unfold unvisited. apply subseteq_size. set_solver. Qed.

Lemma unvisited_insert root V :
  root ∈ dom g → root ∉ V → unvisited g ({[root]} ∪ V) < unvisited g V.
Proof.
  intros Hd HV. unfold unvisited. apply subset_size. split; [set_solver|].
  intros Hsub. assert (root ∈ dom g ∖ ({[root]} ∪ V)) by set_solver.
  set_solver.
Qed.

Lemma unvisited_le V : unvisited g V ≤ size g.
Proof.
  unfold unvisited. rewrite <- size_dom.
  apply subseteq_size. set_solver.
Qed.

End Unvisited.

Section TraverseFuel.
Context {St : Type}.
Variable g : gmap nat (list CNTKVariable).
Variable functor : nat → St → St.

Lemma TraverseInputs_mono
    (rec rec' : nat → gset nat → St → option (gset nat * St)) :
  (∀ c W s r, rec c W s = Some r → rec' c W s = Some r) →
  ∀ ins W s r,
    TraverseInputs rec ins W s = Some r →
    TraverseInputs rec' ins W s = Some r.
Proof.
  intros Hrec ins. induction ins as [|v ins IH]; intros W s r; simpl; [done|].
  destruct (IsOutput v && bool_decide (Owner v ∉ W)); [|by apply IH].
  destruct (rec (Owner v) W s) as [[W1 s1]|] eqn:E; [|done].
  rewrite (Hrec _ _ _ _ E). apply IH.
Qed.

Lemma Traverse_S n root V s :
  Traverse g functor (S n) root V s
  = TraverseInputs (Traverse g functor n) (Inputs g root)
      ({[root]} ∪ V) (functor root s).
Proof. reflexivity. Qed.

Lemma Traverse_fuel_mono n m root V s r :
  n ≤ m →
  Traverse g functor n root V s = Some r →
  Traverse g functor m root V s = Some r.
Proof.
  revert m root V s r. induction n as [|n IH]; intros m root V s r Hle; [done|].
  destruct m as [|m]; [lia|]. simpl.
  apply TraverseInputs_mono. intros c W s' r'. apply IH. lia.
Qed.

Lemma TraverseInputs_terminates n
    (rec : nat → gset nat → St → option (gset nat * St)) :
  (∀ c W s, c ∉ W → unvisited g W < n →
     ∃ W' s', rec c W s = Some (W', s') ∧ W ⊆ W') →
  ∀ ins W s, unvisited g W < n →
    ∃ W' s', TraverseInputs rec ins W s = Some (W', s') ∧ W ⊆ W'.
Proof.
  intros Hrec ins. induction ins as [|v ins IH]; intros W s Hn; simpl.
  { by exists W, s. }
  destruct (IsOutput v) eqn:Ev; simpl; [|by apply IH].
  case_bool_decide as Hc; [|by apply IH].
  destruct (Hrec (Owner v) W s Hc Hn) as (W1 & s1 & -> & HW1).
  destruct (IH W1 s1) as (W' & s' & -> & HW').
  { pose proof (unvisited_mono g _ _ HW1). lia. }
  exists W', s'. split; [done|set_solver].
Qed.

Lemma Traverse_terminates_unvisited n root V s :
  root ∉ V → unvisited g V < n →
  ∃ V' s', Traverse g functor n root V s = Some (V', s') ∧ V ⊆ V'.
Proof.
  revert root V s. induction n as [|n IH]; intros root V s HV Hn; [lia|].
  simpl. destruct (g !! root) as [ins|] eqn:Eg.
  - destruct (TraverseInputs_terminates n (Traverse g functor n) IH
                (Inputs g root) ({[root]} ∪ V) (functor root s))
      as (V' & s' & -> & HV').
    { assert (root ∈ dom g) as Hd by (apply elem_of_dom; eauto).
      pose proof (unvisited_insert g root V Hd HV). lia. }
    exists V', s'. split; [done|set_solver].
  - unfold Inputs. rewrite Eg. simpl.
    exists ({[root]} ∪ V), (functor root s). split; [done|set_solver].
Qed.

(** [TraverseFuel g] is enough from every root and visited set. *)
Lemma Traverse_terminates root V s :
  ∃ V' s', Traverse g functor (TraverseFuel g) root V s = Some (V', s').
Proof.
  unfold TraverseFuel. rewrite Traverse_S.
  destruct (TraverseInputs_terminates (S (size g))
              (Traverse g functor (S (size g)))
              (Traverse_terminates_unvisited (S (size g)))
              (Inputs g root) ({[root]} ∪ V) (functor root s))
    as (V' & s' & HT & _).
  { pose proof (unvisited_le g ({[root]} ∪ V)). lia. }
  rewrite HT. eauto.
Qed.
End TraverseFuel.

(** ** The functor sees the visited functions in order, and nothing else *)

Section TraverseRel.
Context {St1 St2 : Type}.
Variable g : gmap nat (list CNTKVariable).
Variable F1 : nat → St1 → St1.
Variable F2 : nat → St2 → St2.
Variable R : St1 → St2 → Prop.
Hypothesis R_step : ∀ f s1 s2, R s1 s2 → R (F1 f s1) (F2 f s2).

Lemma TraverseInputs_rel rec1 rec2 :
  (∀ c W s1 s2, R s1 s2 → related_runs R (rec1 c W s1) (rec2 c W s2)) →
  ∀ ins W s1 s2, R s1 s2 →
    related_runs R (TraverseInputs rec1 ins W s1) (TraverseInputs rec2 ins W s2).
Proof.
  intros Hrec ins. induction ins as [|v ins IH]; intros W s1 s2 HR; simpl.
  { done. }
  destruct (IsOutput v && bool_decide (Owner v ∉ W)); [|by apply IH].
  specialize (Hrec (Owner v) W s1 s2 HR). unfold related_runs in Hrec.
  destruct (rec1 (Owner v) W s1) as [[W1 t1]|],
           (rec2 (Owner v) W s2) as [[W2 t2]|]; try done.
  destruct Hrec as [-> HR']. by apply IH.
Qed.

Lemma Traverse_rel fuel root V s1 s2 :
  R s1 s2 →
  related_runs R (Traverse g F1 fuel root V s1) (Traverse g F2 fuel root V s2).
Proof.
  revert root V s1 s2. induction fuel as [|n IH]; intros root V s1 s2 HR.
  { done. }
  simpl. apply TraverseInputs_rel; [exact IH|]. by apply R_step.
Qed.
End TraverseRel.

(** Every functor's final state is the fold of the functor over the
    recorded calls. *)
Lemma Traverse_functor_fold {St} (g : gmap nat (list CNTKVariable))
    (F : nat → St → St) fuel root V s V' calls :
  Traverse g record_call fuel root V [] = Some (V', calls) →
  Traverse g F fuel root V s = Some (V', foldl (λ s f, F f s) s calls).
Proof.
  intros HT.
  pose proof (Traverse_rel g record_call F
                (λ tr s', s' = foldl (λ s f, F f s) s tr)) as Hrel.
  specialize (Hrel (λ f tr s' Hs,
    eq_trans (f_equal (F f) Hs) (eq_sym (foldl_snoc _ _ _ _))) fuel root V [] s eq_refl).
  unfold related_runs in Hrel. rewrite HT in Hrel.
  destruct (Traverse g F fuel root V s) as [[V2 s2]|]; [|done].
  by destruct Hrel as [-> ->].
Qed.

(** ** What a traversal visits *)

Section TraverseOrder.
Variable g : gmap nat (list CNTKVariable).

Lemma parents_first_mono seen seen' l :
  seen ⊆ seen' → parents_first g seen l → parents_first g seen' l.
Proof.
  revert seen seen'. induction l as [|x l IH]; intros seen seen' Hs; simpl.
  { done. }
  intros [(p & Hp & He) Hl]. split.
  - exists p. split; [set_solver|done].
  - eapply IH; [|exact Hl]. set_solver.
Qed.

Lemma parents_first_app seen l1 l2 :
  parents_first g seen l1 →
  parents_first g (list_to_set l1 ∪ seen) l2 →
  parents_first g seen (l1 ++ l2).
Proof.
  revert seen. induction l1 as [|x l1 IH]; intros seen; simpl.
  - intros _. apply parents_first_mono. set_solver.
  - intros [Hx Hl1] Hl2. split; [done|]. apply IH; [done|].
    eapply parents_first_mono; [|exact Hl2]. set_solver.
Qed.

Lemma parents_first_lookup seen l i x :
  parents_first g seen l → l !! i = Some x →
  ∃ p, edge g p x ∧ (p ∈ seen ∨ ∃ j, j < i ∧ l !! j = Some p).
Proof.
  revert seen i. induction l as [|y l IH]; intros seen i; simpl; [done|].
  intros [(p & Hp & He) Hl]. destruct i as [|i]; simpl.
  - intros [= ->]. exists p. auto.
  - intros Hx. destruct (IH _ _ Hl Hx) as (q & Hq & Hwhere).
    exists q. split; [done|].
    destruct Hwhere as [[->%elem_of_singleton|Hs]%elem_of_union|(j & Hj & Hlj)].
    + right. exists 0. split; [lia|done].
    + by left.
    + right. exists (S j). split; [lia|done].
Qed.

Lemma parents_first_reachable root seen l :
  (∀ p, p ∈ seen → reachable g root p) →
  parents_first g seen l → ∀ x, x ∈ l → reachable g root x.
Proof.
  revert seen. induction l as [|y l IH]; intros seen Hseen; simpl.
  { intros _ x Hx. by apply elem_of_nil in Hx. }
  intros [(p & Hp & He) Hl] x Hx.
  assert (reachable g root y) as Hy.
  { eapply rtc_r; [apply Hseen, Hp|exact He]. }
  apply elem_of_cons in Hx as [->|Hx]; [done|].
  eapply (IH ({[y]} ∪ seen)); [|exact Hl|exact Hx].
  intros q [->%elem_of_singleton|Hq]%elem_of_union; auto.
Qed.

Lemma TraverseInputs_spec parent
    (rec : nat → gset nat → list nat → option (gset nat * list nat)) :
  (∀ c W tr0 W1 tr1, rec c W tr0 = Some (W1, tr1) →
     ∃ new, tr1 = tr0 ++ c :: new ∧ Traverse_post g c W new W1) →
  ∀ ins W tr0 W' tr,
    (∀ v, v ∈ ins → IsOutput v = true → edge g parent (Owner v)) →
    TraverseInputs rec ins W tr0 = Some (W', tr) →
    ∃ new, tr = tr0 ++ new ∧ TraverseInputs_post g parent ins W new W'.
Proof.
  intros Hrec ins. induction ins as [|v ins IH]; intros W tr0 W' tr Hins; simpl.
  { intros [= <- <-]. exists []. rewrite app_nil_r. split; [done|].
    unfold TraverseInputs_post. split_and!; simpl; try done.
    - set_solver.
    - apply NoDup_nil_2.
    - intros x Hx. by apply elem_of_nil in Hx.
    - intros v Hv. by apply elem_of_nil in Hv.
    - intros x c Hx. by apply elem_of_nil in Hx. }
  assert (∀ v', v' ∈ ins → IsOutput v' = true → edge g parent (Owner v'))
    as Hins' by (intros v' Hv'; apply Hins; set_solver).
  destruct (IsOutput v) eqn:Ev; simpl.
  - case_bool_decide as Hc.
    + destruct (rec (Owner v) W tr0) as [[W1 tr1]|] eqn:Erec; [|done].
      intros Hloop.
      destruct (Hrec _ _ _ _ _ Erec)
        as (new1 & -> & HW1 & Hnd1 & Hfresh1 & Hpf1 & Hcl1).
      destruct (IH _ _ _ _ Hins' Hloop)
        as (new2 & -> & HW' & Hnd2 & Hfresh2 & Hpf2 & Hin2 & Hcl2).
      exists (Owner v :: new1 ++ new2).
      split; [by rewrite <- app_assoc|].
      assert (W1 ⊆ W') as Hsub by set_solver.
      unfold TraverseInputs_post. split_and!.
      * rewrite HW', HW1, list_to_set_cons, list_to_set_app_L. set_solver.
      * apply NoDup_cons. split.
        { intros [Hx|Hx]%elem_of_app; [apply Hfresh1 in Hx|apply Hfresh2 in Hx];
            set_solver. }
        apply NoDup_app. repeat split; [done| |done].
        intros x Hx1 Hx2. apply Hfresh2 in Hx2. set_solver.
      * intros x [->|[Hx|Hx]%elem_of_app]%elem_of_cons; [done| |].
        { apply Hfresh1 in Hx. set_solver. }
        { apply Hfresh2 in Hx. set_solver. }
      * simpl. split.
        { exists parent. split; [set_solver|]. apply Hins; [set_solver|done]. }
        apply parents_first_app.
        { eapply parents_first_mono; [|exact Hpf1]. set_solver. }
        { eapply parents_first_mono; [|exact Hpf2]. set_solver. }
      * intros v' [->|Hv']%elem_of_cons Hout; [|by apply Hin2].
        apply Hsub. set_solver.
      * intros x c [->|[Hx|Hx]%elem_of_app]%elem_of_cons He.
        { apply Hsub. eapply Hcl1; [by left|done]. }
        { apply Hsub. eapply Hcl1; [by right|done]. }
        { by eapply Hcl2. }
    + intros Hloop.
      destruct (IH _ _ _ _ Hins' Hloop)
        as (new & -> & HW' & Hnd & Hfresh & Hpf & Hin & Hcl).
      exists new. split; [done|].
      unfold TraverseInputs_post. split_and!; try done.
      intros v' [->|Hv']%elem_of_cons Hout; [|by apply Hin].
      set_solver.
  - intros Hloop.
    destruct (IH _ _ _ _ Hins' Hloop)
      as (new & -> & HW' & Hnd & Hfresh & Hpf & Hin & Hcl).
    exists new. split; [done|].
      unfold TraverseInputs_post. split_and!; try done.
    intros v' [->|Hv']%elem_of_cons Hout; [congruence|by apply Hin].
Qed.

Lemma Traverse_spec fuel root V tr0 V' tr :
  Traverse g record_call fuel root V tr0 = Some (V', tr) →
  ∃ new, tr = tr0 ++ root :: new ∧ Traverse_post g root V new V'.
Proof.
  revert root V tr0 V' tr.
  induction fuel as [|n IH]; intros root V tr0 V' tr; [done|].
  rewrite Traverse_S. intros Hloop.
  destruct (TraverseInputs_spec root (Traverse g record_call n) IH
              _ _ _ _ _ (λ v Hv Hout, ex_intro _ v (conj Hv (conj Hout eq_refl)))
              Hloop)
    as (new & -> & HV' & Hnd & Hfresh & Hpf & Hin & Hcl).
  exists new. unfold record_call. rewrite <- app_assoc. split; [done|].
  unfold Traverse_post. split_and!; try done.
  intros x c [->|Hx] He; [|by eapply Hcl].
  destruct He as (v & Hv & Hout & <-). by apply Hin.
Qed.

(** A set that contains [root] and is closed under edges contains the
    reachable closure. *)
Lemma reachable_closed root (W : gset nat) :
  root ∈ W → (∀ x c, x ∈ W → edge g x c → c ∈ W) →
  ∀ x, reachable g root x → x ∈ W.
Proof.
  intros Hroot Hcl x Hreach.
  induction Hreach as [|a b c Hab _ IH]; [done|].
  apply IH. by eapply Hcl.
Qed.
End TraverseOrder.

Section TraverseFacts.
Variable g : gmap nat (list CNTKVariable).

Lemma edge_rank rank f c :
  topo_ranked rank g → edge g f c → rank c < rank f.
Proof.
  intros Hr (v & Hv & Hout & <-). unfold Inputs in Hv.
  destruct (g !! f) as [ins|] eqn:Eg; simpl in Hv.
  - specialize (Hr f ins Eg). simpl in Hr.
    rewrite Forall_forall in Hr. by apply Hr.
  - by apply elem_of_nil in Hv.
Qed.

Lemma topo_ranked_acyclic rank : topo_ranked rank g → acyclic g.
Proof.
  intros Hr f Hcycle.
  assert (∀ a b, tc (edge g) a b → rank b < rank a) as Hlt.
  { intros a b Hab. induction Hab as [a b He|a b c He _ IH].
    - by eapply edge_rank.
    - pose proof (edge_rank rank a b Hr He). lia. }
  specialize (Hlt f f Hcycle). lia.
Qed.

Lemma visit_order_spec root V :
  ∃ V' new, visit_order g root V = Some (V', root :: new)
            ∧ Traverse_post g root V new V'.
Proof.
  unfold visit_order.
  destruct (Traverse_terminates g record_call root V []) as (V' & tr & HT).
  destruct (Traverse_spec g _ _ _ _ _ _ HT) as (new & -> & Hpost).
  exists V', new. by rewrite HT.
Qed.

Lemma Traverse_post_reachable root V new V' :
  Traverse_post g root V new V' → ∀ x, x ∈ new → reachable g root x.
Proof.
  intros (_ & _ & _ & Hpf & _).
  apply (parents_first_reachable g root {[root]}); [|done].
  intros p ->%elem_of_singleton. apply rtc_refl.
Qed.

Lemma Traverse_post_closure root new V' :
  Traverse_post g root ∅ new V' → ∀ x, x ∈ V' ↔ reachable g root x.
Proof.
  intros Hpost x. pose proof (Traverse_post_reachable _ _ _ _ Hpost) as Hr.
  destruct Hpost as (HV' & _ & _ & _ & Hcl). split.
  - rewrite HV'. intros [[->%elem_of_singleton|Hx]%elem_of_union|Hx]%elem_of_union.
    + apply rtc_refl.
    + by apply not_elem_of_empty in Hx.
    + apply Hr. by apply elem_of_list_to_set in Hx.
  - apply reachable_closed with (g := g); [set_solver|].
    intros y c Hy. apply Hcl. rewrite HV' in Hy.
    apply elem_of_union in Hy as [[Hy%elem_of_singleton|Hy]%elem_of_union|Hy].
    + by left.
    + by apply not_elem_of_empty in Hy.
    + right. by apply elem_of_list_to_set in Hy.
Qed.

(** The visited set does not depend on the functor. *)
Lemma Traverse_of_visit_order {St} (F : nat → St → St) root V s V' calls :
  visit_order g root V = Some (V', calls) →
  Traverse g F (TraverseFuel g) root V s
  = Some (V', foldl (λ s f, F f s) s calls).
Proof. apply Traverse_functor_fold. Qed.

Lemma Collect_of_visit_order root V V' calls :
  visit_order g root V = Some (V', calls) → Collect g root V = Some V'.
Proof.
  intros Hv. unfold Collect.
  by rewrite (Traverse_of_visit_order _ _ _ _ _ _ Hv).
Qed.

(** The overload without a visited set folds the functor over the calls
    of a traversal from an empty set. *)
Lemma Traverse0_fold {St} (F : nat → St → St) root s V' calls :
  visit_order g root ∅ = Some (V', calls) →
  Traverse0 g F root s = Some (foldl (λ s f, F f s) s calls).
Proof.
  intros Hv. unfold Traverse0.
  by rewrite (Traverse_of_visit_order _ _ _ _ _ _ Hv).
Qed.

(** [Collect] from an empty set returns the reachable closure. *)
Lemma Collect_closure root :
  ∃ functions, Collect g root ∅ = Some functions
               ∧ ∀ f, f ∈ functions ↔ reachable g root f.
Proof.
  destruct (visit_order_spec root ∅) as (V' & new & Hv & Hpost).
  exists V'. split; [by eapply Collect_of_visit_order|].
  by eapply Traverse_post_closure.
Qed.
End TraverseFacts.

(** ** Collect and Create *)

(** C1.  On every finite acyclic function graph, [Collect] from an empty
    set leaves in it exactly the reachable closure of the root (every
    collected function is reachable along Output->Owner edges and every
    reachable function is collected), and [Create] stores that set as
    [m_allPrimitiveFunctions] of the composite it makes.  Into a set that
    is not empty, [Collect] adds the root and reachable functions only. *)
Theorem Collect_exact_reachable_closure (g : gmap nat (list CNTKVariable))
    (rootFunction : nat) :
  acyclic g →
  ∃ functions,
    Collect g rootFunction ∅ = Some functions
    ∧ (∀ f, f ∈ functions ↔ reachable g rootFunction f)
    ∧ (∀ name uid, ∃ cf,
         Create g rootFunction name uid = Some cf
         ∧ RootFunction cf = rootFunction
         ∧ m_allPrimitiveFunctions cf = functions)
    ∧ (∀ functions0, ∃ functions',
         Collect g rootFunction functions0 = Some functions'
         ∧ functions0 ⊆ functions'
         ∧ rootFunction ∈ functions'
         ∧ ∀ f, f ∈ functions' →
                f ∈ functions0 ∨ reachable g rootFunction f).
Proof.
  intros _. destruct (Collect_closure g rootFunction) as (functions & HC & Hcl).
  exists functions. split_and!; [done..| |].
  - intros name uid. unfold Create. rewrite HC. simpl. eauto.
  - intros functions0.
    destruct (visit_order_spec g rootFunction functions0)
      as (V' & new & Hv & Hpost).
    pose proof (Traverse_post_reachable g _ _ _ _ Hpost) as Hreach.
    destruct Hpost as (HV' & _).
    exists V'. split_and!.
    + by eapply Collect_of_visit_order.
    + set_solver.
    + set_solver.
    + intros f. rewrite HV', !elem_of_union, elem_of_singleton.
      intros [[->|Hf]|Hf%elem_of_list_to_set]; [right; apply rtc_refl|by left|].
      right. by apply Hreach.
Qed.

(** Acyclicity of a concrete graph, from the identity ranking. *)
Ltac solve_acyclic :=
  apply (topo_ranked_acyclic _ id); apply (bool_decide_unpack _); by vm_compute.

Lemma Collect_exact_reachable_closure_witness :
  acyclic diamond_graph
  ∧ ∃ functions,
      Collect diamond_graph 4 ∅ = Some functions
      ∧ (∀ f, f ∈ functions ↔ reachable diamond_graph 4 f)
      ∧ (∀ name uid, ∃ cf,
           Create diamond_graph 4 name uid = Some cf
           ∧ RootFunction cf = 4
           ∧ m_allPrimitiveFunctions cf = functions)
      ∧ (∀ functions0, ∃ functions',
           Collect diamond_graph 4 functions0 = Some functions'
           ∧ functions0 ⊆ functions'
           ∧ 4 ∈ functions'
           ∧ ∀ f, f ∈ functions' →
                  f ∈ functions0 ∨ reachable diamond_graph 4 f).
Proof.
  assert (acyclic diamond_graph) as Hdag by solve_acyclic.
  split; [exact Hdag|].
  apply (Collect_exact_reachable_closure diamond_graph 4 Hdag).
Defined.

Example Create_diamond :
  Create diamond_graph 4 "" ""
  = Some (mkCompositeFunction 4 {[1; 2; 3; 4]} "" "" None ∅ ∅ false).
Proof. by vm_compute. Qed.

(** ** Termination *)

(** C8.  [Traverse] terminates on every finite acyclic function graph:
    from every root, visited set and functor state the recursion returns
    within depth [TraverseFuel g], and a larger bound returns the same. *)
Theorem Traverse_terminates_on_dag {St} (g : gmap nat (list CNTKVariable))
    (functor : nat → St → St) (rootFunction : nat)
    (visitedFunctions : gset nat) (st : St) :
  acyclic g →
  ∃ r, ∀ fuel, TraverseFuel g ≤ fuel →
    Traverse g functor fuel rootFunction visitedFunctions st = Some r.
Proof.
  intros _.
  destruct (Traverse_terminates g functor rootFunction visitedFunctions st)
    as (V' & s' & HT).
  exists (V', s'). intros fuel Hle. by eapply Traverse_fuel_mono.
Qed.

Lemma Traverse_terminates_on_dag_witness :
  acyclic diamond_graph
  ∧ ∃ r, ∀ fuel, TraverseFuel diamond_graph ≤ fuel →
      Traverse diamond_graph record_call fuel 4 ∅ [] = Some r.
Proof.
  assert (acyclic diamond_graph) as Hdag by solve_acyclic.
  split; [exact Hdag|].
  apply (Traverse_terminates_on_dag diamond_graph record_call 4 ∅ [] Hdag).
Defined.

(** The visited-set test also stops the walk on a cycle. *)
Example Traverse_on_cycle :
  snd <$> visit_order cycle_graph 1 ∅ = Some [1; 2].
Proof. by vm_compute. Qed.

(** ** Visiting order *)

Example visit_order_diamond :
  snd <$> visit_order diamond_graph 4 ∅ = Some [4; 2; 1; 3]
  ∧ snd <$> visit_order diamond_graph 4 {[2]} = Some [4; 3; 1]
  ∧ snd <$> visit_order diamond_graph 4 {[1; 2; 3; 4]} = Some [4].
Proof. by vm_compute. Qed.

Section VisitOrder.
Variable g : gmap nat (list CNTKVariable).

Lemma visit_order_facts root V V' calls :
  visit_order g root V = Some (V', calls) →
  NoDup calls
  ∧ head calls = Some root
  ∧ V' = V ∪ list_to_set calls
  ∧ (∀ f, f ∈ calls → f = root ∨ f ∉ V)
  ∧ (∀ f, f ∈ calls → reachable g root f)
  ∧ (∀ f c, f ∈ calls → edge g f c → c ∈ V')
  ∧ (∀ i f, calls !! i = Some f → 0 < i →
       ∃ j p, j < i ∧ calls !! j = Some p ∧ edge g p f).
Proof.
  intros Hv. destruct (visit_order_spec g root V) as (V2 & new & Hv2 & Hpost).
  rewrite Hv in Hv2. injection Hv2 as -> ->.
  pose proof (Traverse_post_reachable g _ _ _ _ Hpost) as Hreach.
  destruct Hpost as (HV' & Hnd & Hfresh & Hpf & Hcl).
  split_and!.
  - apply NoDup_cons. split; [|done]. intros Hx%Hfresh. set_solver.
  - done.
  - rewrite HV', list_to_set_cons. set_solver.
  - intros f [->|Hf%Hfresh]%elem_of_cons; [by left|right; set_solver].
  - intros f [->|Hf]%elem_of_cons; [apply rtc_refl|by apply Hreach].
  - intros f c [->|Hf]%elem_of_cons; apply Hcl; auto.
  - intros [|i] f Hi Hpos; [lia|]. simpl in Hi.
    destruct (parents_first_lookup g _ _ _ _ Hpf Hi) as (p & He & Hwhere).
    destruct Hwhere as [->%elem_of_singleton|(j & Hj & Hlj)].
    + exists 0, root. split_and!; [lia|done|done].
    + exists (S j), p. split_and!; [lia|done|done].
Qed.

Lemma visit_order_later root V V' calls i p c :
  visit_order g root V = Some (V', calls) →
  calls !! i = Some p → edge g p c → c ∉ V → c ∉ take (S i) calls →
  ∃ j, i < j ∧ calls !! j = Some c.
Proof.
  intros Hv Hi He HcV Hctake.
  destruct (visit_order_facts _ _ _ _ Hv) as (_ & _ & HV' & _ & _ & Hcl & _).
  assert (c ∈ calls) as Hc.
  { specialize (Hcl p c (list_elem_of_lookup_2 _ _ _ Hi) He).
    rewrite HV' in Hcl. set_solver. }
  apply list_elem_of_lookup in Hc as [j Hj]. exists j. split; [|done].
  destruct (decide (i < j)) as [|Hge]; [done|]. exfalso. apply Hctake.
  apply list_elem_of_lookup. exists j. rewrite lookup_take_lt; [done|lia].
Qed.

Lemma visit_order_complete root V' calls :
  visit_order g root ∅ = Some (V', calls) →
  ∀ f, reachable g root f → f ∈ calls.
Proof.
  intros Hv f Hf.
  destruct (visit_order_spec g root ∅) as (V2 & new & Hv2 & Hpost).
  rewrite Hv in Hv2. injection Hv2 as -> ->.
  apply (Traverse_post_closure g _ _ _ Hpost) in Hf.
  destruct Hpost as (HV' & _). rewrite HV' in Hf. set_solver.
Qed.
End VisitOrder.

(** C2, as amended.  On every finite acyclic function graph and for every
    functor, [Traverse(rootFunction, visitedFunctions, functor)] invokes the
    functor on the functions of [calls], in that order and on nothing else:
    no function occurs twice; the root comes first, whether or not it is in
    [visitedFunctions]; every other function is outside
    [visitedFunctions], is reachable from the root and comes after a
    function that reads one of its outputs; an input owner that is not
    visited when its consumer is, comes later; and from an empty
    [visitedFunctions] the calls are exactly the reachable closure. *)
Theorem Traverse_invokes_once_in_preorder {St}
    (g : gmap nat (list CNTKVariable)) (functor : nat → St → St)
    (rootFunction : nat) (visitedFunctions : gset nat) (st : St) :
  acyclic g →
  ∃ visited' calls,
    visit_order g rootFunction visitedFunctions = Some (visited', calls)
    ∧ Traverse g functor (TraverseFuel g) rootFunction visitedFunctions st
      = Some (visited', foldl (λ s f, functor f s) st calls)
    ∧ NoDup calls
    ∧ head calls = Some rootFunction
    ∧ visited' = visitedFunctions ∪ list_to_set calls
    ∧ (∀ f, f ∈ calls → f = rootFunction ∨ f ∉ visitedFunctions)
    ∧ (∀ f, f ∈ calls → reachable g rootFunction f)
    ∧ (visitedFunctions = ∅ → ∀ f, reachable g rootFunction f → f ∈ calls)
    ∧ (∀ i f, calls !! i = Some f → 0 < i →
         ∃ j p, j < i ∧ calls !! j = Some p ∧ edge g p f)
    ∧ (∀ i p c, calls !! i = Some p → edge g p c →
         c ∉ visitedFunctions → c ∉ take (S i) calls →
         ∃ j, i < j ∧ calls !! j = Some c).
Proof.
  intros _.
  destruct (visit_order_spec g rootFunction visitedFunctions)
    as (V' & new & Hv & Hpost).
  destruct (visit_order_facts g _ _ _ _ Hv)
    as (Hnd & Hhd & HV' & Hfresh & Hreach & Hcl & Hparent).
  exists V', (rootFunction :: new). split_and!; try done.
  - by apply Traverse_of_visit_order.
  - intros ->. by eapply visit_order_complete.
  - intros i p c. exact (visit_order_later g _ _ _ _ i p c Hv).
Qed.

Lemma Traverse_invokes_once_in_preorder_witness :
  acyclic diamond_graph
  ∧ ∃ visited' calls,
    visit_order diamond_graph 4 {[2]} = Some (visited', calls)
    ∧ Traverse diamond_graph (DetermineInputs_functor diamond_graph)
        (TraverseFuel diamond_graph) 4 {[2]} ([], ∅)
      = Some (visited',
              foldl (λ s f, DetermineInputs_functor diamond_graph f s)
                ([], ∅) calls)
    ∧ NoDup calls
    ∧ head calls = Some 4
    ∧ visited' = {[2]} ∪ list_to_set calls
    ∧ (∀ f, f ∈ calls → f = 4 ∨ f ∉ ({[2]} : gset nat))
    ∧ (∀ f, f ∈ calls → reachable diamond_graph 4 f)
    ∧ (({[2]} : gset nat) = ∅ → ∀ f, reachable diamond_graph 4 f → f ∈ calls)
    ∧ (∀ i f, calls !! i = Some f → 0 < i →
         ∃ j p, j < i ∧ calls !! j = Some p ∧ edge diamond_graph p f)
    ∧ (∀ i p c, calls !! i = Some p → edge diamond_graph p c →
         c ∉ ({[2]} : gset nat) → c ∉ take (S i) calls →
         ∃ j, i < j ∧ calls !! j = Some c).
Proof.
  assert (acyclic diamond_graph) as Hdag by solve_acyclic.
  split; [exact Hdag|].
  apply (Traverse_invokes_once_in_preorder diamond_graph
           (DetermineInputs_functor diamond_graph) 4 {[2]} ([], ∅) Hdag).
Defined.

(** The claim C2 as it is worded fails where it says that the functor is
    never invoked on a function already in the supplied set, the root
    included: with the visited set that a first traversal from function 2
    of the Add/Mul graph leaves, a second traversal from function 2 invokes
    the functor on it again. *)
Lemma Traverse_invokes_visited_root :
  ¬ (∀ visited1 calls1 visited2 calls2,
       visit_order add_mul_graph 2 ∅ = Some (visited1, calls1) →
       visit_order add_mul_graph 2 visited1 = Some (visited2, calls2) →
       ∀ f, f ∈ visited1 → f ∉ calls2).
Proof.
  intros Hclaim.
  destruct (visit_order add_mul_graph 2 ∅) as [[visited1 calls1]|] eqn:E1;
    [|by vm_compute in E1].
  destruct (visit_order add_mul_graph 2 visited1) as [[visited2 calls2]|] eqn:E2.
  - apply (Hclaim _ _ _ _ eq_refl E2 2).
    + destruct (visit_order_facts _ _ _ _ _ E1) as (_ & Hhd & -> & _).
      destruct calls1 as [|c calls1]; [done|]. injection Hhd as ->.
      set_solver.
    + destruct (visit_order_facts _ _ _ _ _ E2) as (_ & Hhd & _).
      destruct calls2 as [|c calls2]; [done|]. injection Hhd as ->.
      set_solver.
  - destruct (visit_order_spec add_mul_graph 2 visited1) as (? & ? & Hv & _).
    congruence.
Qed.

(** ** DetermineInputs *)

Lemma DetermineInputs_functor_fold (g : gmap nat (list CNTKVariable)) calls acc :
  foldl (λ s f, DetermineInputs_functor g f s) acc calls
  = foldl DetermineInputs_step acc (encountered_inputs g calls).
Proof.
  revert acc. induction calls as [|f calls IH]; intros acc; [done|].
  unfold encountered_inputs. simpl. rewrite foldl_app. apply IH.
Qed.

Lemma DetermineInputs_inv_order_app (E : list CNTKVariable) x
    (ins : list CNTKVariable) :
  (∀ i j v w, i < j → ins !! i = Some v → ins !! j = Some w →
     ∃ a, E !! a = Some v ∧ ∀ b, b ≤ a → E !! b ≠ Some w) →
  ∀ i j v w, i < j → ins !! i = Some v → ins !! j = Some w →
    ∃ a, (E ++ [x]) !! a = Some v ∧ ∀ b, b ≤ a → (E ++ [x]) !! b ≠ Some w.
Proof.
  intros Hord i j v w Hij Hi Hj.
  destruct (Hord i j v w Hij Hi Hj) as (a & Ha & Hb).
  pose proof (lookup_lt_Some _ _ _ Ha) as Hlen.
  exists a. split; [by apply lookup_app_l_Some|].
  intros b Hle. rewrite lookup_app_l by lia. by apply Hb.
Qed.

Lemma DetermineInputs_step_inv (E : list CNTKVariable) :
  DetermineInputs_inv E (foldl DetermineInputs_step ([], ∅) E).
Proof.
  induction E as [|x E IH] using rev_ind.
  { unfold DetermineInputs_inv. simpl. split_and!.
    - done.
    - apply NoDup_nil_2.
    - intros v. split; [by intros ?%elem_of_nil|by intros [?%elem_of_nil _]].
    - intros i j v w _ Hi. by rewrite lookup_nil in Hi. }
  rewrite foldl_app. simpl.
  destruct (foldl DetermineInputs_step ([], ∅) E) as [ins uniq].
  destruct IH as (Huniq & Hnd & Hmem & Hord). simpl in *.
  unfold DetermineInputs_step. simpl.
  destruct (IsOutput x) eqn:Ex; simpl.
  - unfold DetermineInputs_inv. simpl. split_and!; [done|done| |].
    + intros v. rewrite Hmem, elem_of_app, list_elem_of_singleton.
      split; [intros []; auto|].
      intros [[Hv| ->] Hout]; [done|congruence].
    + by apply DetermineInputs_inv_order_app.
  - case_bool_decide as Hx; unfold DetermineInputs_inv; simpl.
    + assert (x ∉ ins) as Hxins by (rewrite Huniq in Hx; set_solver).
      split_and!.
      * rewrite list_to_set_app_L, Huniq. set_solver.
      * apply NoDup_app. split_and!; [done| |apply NoDup_singleton].
        intros y Hy ->%list_elem_of_singleton. done.
      * intros v. rewrite !elem_of_app, !list_elem_of_singleton, Hmem.
        split; [intros [[]| ->]; auto|]. intros [[Hv| ->] Hout]; auto.
      * intros i j v w Hij Hi Hj.
        destruct (decide (j < length ins)) as [Hlt|Hge].
        { rewrite lookup_app_l in Hi by lia. rewrite lookup_app_l in Hj by lia.
          by apply (DetermineInputs_inv_order_app E x ins Hord i j). }
        pose proof (lookup_lt_Some _ _ _ Hj) as Hjlen.
        rewrite length_app in Hjlen. simpl in Hjlen.
        assert (j = length ins) as -> by lia.
        rewrite lookup_app_l in Hi by lia.
        rewrite list_lookup_middle in Hj by done. injection Hj as <-.
        assert (v ∈ E) as [a Ha]%list_elem_of_lookup.
        { apply Hmem. by eapply list_elem_of_lookup_2. }
        pose proof (lookup_lt_Some _ _ _ Ha) as Halen.
        exists a. split; [by apply lookup_app_l_Some|].
        intros b Hle. rewrite lookup_app_l by lia. intros Hb.
        apply Hxins, Hmem. split; [by eapply list_elem_of_lookup_2|done].
    + assert (x ∈ ins) as Hxins by (rewrite Huniq in Hx; set_solver).
      split_and!; [done|done| |].
      * intros v. rewrite Hmem, elem_of_app, list_elem_of_singleton.
        split; [intros []; auto|].
        intros [[Hv| ->] Hout]; [done|]. by apply Hmem.
      * by apply DetermineInputs_inv_order_app.
Qed.

Example DetermineInputs_diamond :
  DetermineInputs diamond_graph 4 ∅ = Some [var_x; var_y; var_w]
  ∧ DetermineInputs add_mul_graph 2 ∅ = Some [var_w; var_x; var_y].
Proof. by vm_compute. Qed.

(** C3.  On every finite acyclic function graph,
    [DetermineInputs(rootFunction, visitedFunctions)] returns a sequence
    without duplicates that contains exactly the input variables of the
    visited functions that are not Outputs, in the order of first
    encounter: a variable that comes earlier in the result is met by the
    traversal before the first occurrence of any later one.  From an empty
    visited set these are the non-Output inputs of the reachable closure. *)
Theorem DetermineInputs_unique_in_first_encounter_order
    (g : gmap nat (list CNTKVariable)) (rootFunction : nat)
    (visitedFunctions : gset nat) :
  acyclic g →
  ∃ visited' calls inputs,
    visit_order g rootFunction visitedFunctions = Some (visited', calls)
    ∧ DetermineInputs g rootFunction visitedFunctions = Some inputs
    ∧ NoDup inputs
    ∧ (∀ v, v ∈ inputs ↔
            IsOutput v = false ∧ ∃ f, f ∈ calls ∧ v ∈ Inputs g f)
    ∧ (∀ i j v w, i < j → inputs !! i = Some v → inputs !! j = Some w →
         ∃ a, encountered_inputs g calls !! a = Some v
              ∧ ∀ b, b ≤ a → encountered_inputs g calls !! b ≠ Some w)
    ∧ (visitedFunctions = ∅ →
       ∀ v, v ∈ inputs ↔
            IsOutput v = false
            ∧ ∃ f, reachable g rootFunction f ∧ v ∈ Inputs g f).
Proof.
  intros _.
  destruct (visit_order_spec g rootFunction visitedFunctions)
    as (V' & new & Hv & _).
  remember (rootFunction :: new) as calls eqn:Ecalls. clear Ecalls new.
  destruct (visit_order_facts g _ _ _ _ Hv) as (_ & _ & _ & _ & Hreach & _).
  pose proof (Traverse_of_visit_order g (DetermineInputs_functor g)
                _ _ ([], ∅) _ _ Hv) as HT.
  rewrite DetermineInputs_functor_fold in HT.
  pose proof (DetermineInputs_step_inv (encountered_inputs g calls)) as Hinv.
  destruct (foldl DetermineInputs_step ([], ∅) (encountered_inputs g calls))
    as [inputs uniq] eqn:Efold.
  destruct Hinv as (_ & Hnd & Hmem & Hord). simpl in Hnd, Hmem, Hord.
  assert (∀ v, v ∈ inputs ↔
               IsOutput v = false ∧ ∃ f, f ∈ calls ∧ v ∈ Inputs g f) as Hmem'.
  { intros v. rewrite Hmem. unfold encountered_inputs.
    rewrite list_elem_of_bind. naive_solver. }
  exists V', calls, inputs. split_and!; try done.
  - unfold DetermineInputs. by rewrite HT.
  - intros -> v. rewrite Hmem'. split.
    + intros [Hout (f & Hf & Hin)]. eauto.
    + intros [Hout (f & Hf & Hin)].
      pose proof (visit_order_complete g _ _ _ Hv f Hf). eauto.
Qed.

Lemma DetermineInputs_unique_in_first_encounter_order_witness :
  acyclic diamond_graph
  ∧ ∃ visited' calls inputs,
    visit_order diamond_graph 4 ∅ = Some (visited', calls)
    ∧ DetermineInputs diamond_graph 4 ∅ = Some inputs
    ∧ NoDup inputs
    ∧ (∀ v, v ∈ inputs ↔
            IsOutput v = false ∧ ∃ f, f ∈ calls ∧ v ∈ Inputs diamond_graph f)
    ∧ (∀ i j v w, i < j → inputs !! i = Some v → inputs !! j = Some w →
         ∃ a, encountered_inputs diamond_graph calls !! a = Some v
              ∧ ∀ b, b ≤ a →
                  encountered_inputs diamond_graph calls !! b ≠ Some w)
    ∧ ((∅ : gset nat) = ∅ →
       ∀ v, v ∈ inputs ↔
            IsOutput v = false
            ∧ ∃ f, reachable diamond_graph 4 f ∧ v ∈ Inputs diamond_graph f).
Proof.
  assert (acyclic diamond_graph) as Hdag by solve_acyclic.
  split; [exact Hdag|].
  apply (DetermineInputs_unique_in_first_encounter_order diamond_graph 4 ∅ Hdag).
Defined.

(** ** OnPlaceholdersReplaced *)

Section Grafting.
Variable g : gmap nat (list CNTKVariable).
Variable placeholderReplacements : gmap CNTKVariable CNTKVariable.

Lemma OnPlaceholdersReplaced_loop_spec l (W : gset nat) :
  (∀ p, p ∈ l → is_Some (placeholderReplacements !! p)) →
  ∃ W', OnPlaceholdersReplaced_loop g placeholderReplacements l W = Ok W'
        ∧ ∀ f, f ∈ W' ↔ f ∈ W ∨ grafted g placeholderReplacements l f.
Proof.
  revert W. induction l as [|p l IH]; intros W Hkeys; simpl.
  { exists W. split; [done|]. intros f. split; [auto|].
    intros [Hf|(p & r & Hp & _)]; [done|]. by apply elem_of_nil in Hp. }
  unfold OnPlaceholdersReplaced_step.
  destruct (Hkeys p) as [r Hr]; [set_solver|]. rewrite Hr.
  assert (∀ q, q ∈ l → is_Some (placeholderReplacements !! q))
    as Hkeys' by (intros q Hq; apply Hkeys; set_solver).
  destruct (IsOutput r) eqn:Eout.
  - destruct (Collect_closure g (Owner r)) as (W2 & HC & Hcl).
    rewrite HC. simpl.
    destruct (IH (W ∪ W2) Hkeys') as (W' & -> & HW').
    exists W'. split; [done|]. intros f. rewrite HW', elem_of_union, Hcl.
    split.
    + intros [[Hf|Hf]|(q & r' & Hq & Hrest)]; [by left| |].
      * right. exists p, r. split_and!; [set_solver|done..].
      * right. exists q, r'. split; [set_solver|done].
    + intros [Hf|(q & r' & [->|Hq]%elem_of_cons & Hr' & Hout & Hreach)].
      * by left; left.
      * left; right. congruence.
      * right. by exists q, r'.
  - simpl. destruct (IH W Hkeys') as (W' & -> & HW').
    exists W'. split; [done|]. intros f. rewrite HW'. split.
    + intros [Hf|(q & r' & Hq & Hrest)]; [by left|].
      right. exists q, r'. split; [set_solver|done].
    + intros [Hf|(q & r' & [->|Hq]%elem_of_cons & Hr' & Hout & Hreach)].
      * by left.
      * congruence.
      * right. by exists q, r'.
Qed.
End Grafting.

(** C4.  For every set of substitutions whose replaced placeholders are
    keys of the replacement map, [OnPlaceholdersReplaced] completes and
    leaves in [m_allPrimitiveFunctions] the former set together with the
    reachable closure of the owner of every replacing variable that is an
    Output, and nothing else: the set only grows, it is unchanged when no
    replacement is an Output, and when the former set contained the root
    and every edge leaving it led into it or to the owner of such a
    replacement (what substitution does to a closed set), every function
    reachable from the root is owned afterwards. *)
Theorem OnPlaceholdersReplaced_owns_grafted_closure
    (g : gmap nat (list CNTKVariable)) (cf : CompositeFunction)
    (placeholderReplacements : gmap CNTKVariable CNTKVariable)
    (replacedPlaceholders : gset CNTKVariable) :
  replacedPlaceholders ⊆ dom placeholderReplacements →
  ∃ cf',
    OnPlaceholdersReplaced g cf placeholderReplacements replacedPlaceholders
    = Ok cf'
    ∧ RootFunction cf' = RootFunction cf
    ∧ (∀ f, f ∈ m_allPrimitiveFunctions cf' ↔
            f ∈ m_allPrimitiveFunctions cf
            ∨ ∃ p r, p ∈ replacedPlaceholders
                     ∧ placeholderReplacements !! p = Some r
                     ∧ IsOutput r = true ∧ reachable g (Owner r) f)
    ∧ m_allPrimitiveFunctions cf ⊆ m_allPrimitiveFunctions cf'
    ∧ ((∀ p r, p ∈ replacedPlaceholders →
               placeholderReplacements !! p = Some r → IsOutput r = false) →
       m_allPrimitiveFunctions cf' = m_allPrimitiveFunctions cf)
    ∧ (RootFunction cf ∈ m_allPrimitiveFunctions cf →
       (∀ f c, f ∈ m_allPrimitiveFunctions cf → edge g f c →
               c ∈ m_allPrimitiveFunctions cf
               ∨ ∃ p r, p ∈ replacedPlaceholders
                        ∧ placeholderReplacements !! p = Some r
                        ∧ IsOutput r = true ∧ Owner r = c) →
       ∀ f, reachable g (RootFunction cf) f →
            f ∈ m_allPrimitiveFunctions cf').
Proof.
  intros Hkeys.
  destruct (OnPlaceholdersReplaced_loop_spec g placeholderReplacements
              (elements replacedPlaceholders) (m_allPrimitiveFunctions cf))
    as (W' & Hloop & HW').
  { intros p Hp%elem_of_elements. apply elem_of_dom. by apply Hkeys. }
  assert (∀ f, f ∈ W' ↔
               f ∈ m_allPrimitiveFunctions cf
               ∨ ∃ p r, p ∈ replacedPlaceholders
                        ∧ placeholderReplacements !! p = Some r
                        ∧ IsOutput r = true ∧ reachable g (Owner r) f) as Hmem.
  { intros f. rewrite HW'. unfold grafted.
    setoid_rewrite elem_of_elements. done. }
  exists (set_allPrimitiveFunctions cf W').
  unfold OnPlaceholdersReplaced. rewrite Hloop. simpl.
  split_and!; [done|done|exact Hmem| | |].
  - intros f Hf. apply Hmem. by left.
  - intros Hnone. apply set_eq. intros f. rewrite Hmem. split; [|by left].
    intros [Hf|(p & r & Hp & Hr & Hout & _)]; [done|].
    rewrite (Hnone p r Hp Hr) in Hout. done.
  - intros Hroot Hedges. apply reachable_closed with (g := g).
    { apply Hmem. by left. }
    intros x c Hx He. apply Hmem. apply Hmem in Hx.
    destruct Hx as [Hx|(p & r & Hp & Hr & Hout & Hreach)].
    + destruct (Hedges x c Hx He) as [Hc|(p & r & Hp & Hr & Hout & <-)].
      * by left.
      * right. exists p, r. split_and!; [done..|apply rtc_refl].
    + right. exists p, r. split_and!; [done..|]. by eapply rtc_r.
Qed.

Lemma OnPlaceholdersReplaced_owns_grafted_closure_witness :
  ({[var_p]} : gset CNTKVariable)
    ⊆ dom ({[var_p := out_of 2]} : gmap CNTKVariable CNTKVariable)
  ∧ ∃ cf',
    OnPlaceholdersReplaced grafted_graph graft_composite
      {[var_p := out_of 2]} {[var_p]} = Ok cf'
    ∧ RootFunction cf' = RootFunction graft_composite
    ∧ (∀ f, f ∈ m_allPrimitiveFunctions cf' ↔
            f ∈ m_allPrimitiveFunctions graft_composite
            ∨ ∃ p r, p ∈ ({[var_p]} : gset CNTKVariable)
                     ∧ ({[var_p := out_of 2]} : gmap CNTKVariable CNTKVariable)
                         !! p = Some r
                     ∧ IsOutput r = true
                     ∧ reachable grafted_graph (Owner r) f)
    ∧ m_allPrimitiveFunctions graft_composite ⊆ m_allPrimitiveFunctions cf'
    ∧ ((∀ p r, p ∈ ({[var_p]} : gset CNTKVariable) →
               ({[var_p := out_of 2]} : gmap CNTKVariable CNTKVariable)
                 !! p = Some r → IsOutput r = false) →
       m_allPrimitiveFunctions cf' = m_allPrimitiveFunctions graft_composite)
    ∧ (RootFunction graft_composite ∈ m_allPrimitiveFunctions graft_composite →
       (∀ f c, f ∈ m_allPrimitiveFunctions graft_composite →
               edge grafted_graph f c →
               c ∈ m_allPrimitiveFunctions graft_composite
               ∨ ∃ p r, p ∈ ({[var_p]} : gset CNTKVariable)
                        ∧ ({[var_p := out_of 2]}
                             : gmap CNTKVariable CNTKVariable) !! p = Some r
                        ∧ IsOutput r = true ∧ Owner r = c) →
       ∀ f, reachable grafted_graph (RootFunction graft_composite) f →
            f ∈ m_allPrimitiveFunctions cf').
Proof.
  assert (({[var_p]} : gset CNTKVariable)
            ⊆ dom ({[var_p := out_of 2]} : gmap CNTKVariable CNTKVariable))
    as Hkeys by (apply (bool_decide_unpack _); by vm_compute).
  split; [exact Hkeys|].
  apply (OnPlaceholdersReplaced_owns_grafted_closure grafted_graph
           graft_composite {[var_p := out_of 2]} {[var_p]} Hkeys).
Defined.

(** The scenario of the specification: after the graft the composite owns
    the two functions of the new subgraph, and the placeholder is no longer
    among the inputs. *)
Example graft_scenario_owned :
  OnPlaceholdersReplaced grafted_graph graft_composite
    {[var_p := out_of 2]} {[var_p]}
  = Ok (set_allPrimitiveFunctions graft_composite {[1; 2; 5]}).
Proof. by vm_compute. Qed.

Example graft_scenario_inputs :
  DetermineInputs before_graft_graph 5 ∅ = Some [var_p; var_x]
  ∧ DetermineInputs grafted_graph 5 ∅ = Some [var_x; var_y; var_w].
Proof. by vm_compute. Qed.

(** ** Dynamic-axis names *)

Lemma substr_prefix (p s : string) :
  String.eqb (substr s 0 (String.length p)) p = String.prefix p s.
Proof.
  unfold substr. destruct (String.prefix p s) eqn:E.
  - apply String.eqb_eq. by apply String.prefix_correct.
  - apply String.eqb_neq. intros Hs. apply String.prefix_correct in Hs.
    congruence.
Qed.

Lemma prefix_refl (s : string) : String.prefix s s = true.
Proof. induction s as [|c s IH]; simpl; [done|]. by destruct (Ascii.ascii_dec c c). Qed.

Section DynamicAxesFacts.
Context `{AxisAPI}.

(** C9.  [InternalDynamicAxisNameFromDynamicAxes] raises an error exactly
    when the list of dynamic axes is empty, and returns a name exactly
    when it is not. *)
Theorem InternalDynamicAxisNameFromDynamicAxes_error_iff_empty
    (dynamicAxes : list Axis) :
  ((∃ e, InternalDynamicAxisNameFromDynamicAxes dynamicAxes = Throw e)
     ↔ dynamicAxes = [])
  ∧ ((∃ name, InternalDynamicAxisNameFromDynamicAxes dynamicAxes = Ok name)
     ↔ dynamicAxes ≠ [])
  ∧ InternalDynamicAxisNameFromDynamicAxes []
    = Throw (LogicError "Empty dynamic axes set").
Proof.
  split_and!; [| |done];
    unfold InternalDynamicAxisNameFromDynamicAxes;
    destruct dynamicAxes as [|axis0 rest].
  - split; [done|]. intros _. by eexists.
  - destruct (Axes_eqb (axis0 :: rest) [DefaultBatchAxis]);
      [|destruct (Axes_eqb (axis0 :: rest)
                    [DefaultDynamicAxis; DefaultBatchAxis])];
      (split; [by intros [e ?]|done]).
  - split; [by intros [name ?]|done].
  - destruct (Axes_eqb (axis0 :: rest) [DefaultBatchAxis]);
      [|destruct (Axes_eqb (axis0 :: rest)
                    [DefaultDynamicAxis; DefaultBatchAxis])];
      (split; [done|intros _; by eexists]).
Qed.


(** C10.  When [operator==] of [Axis] is reflexive and symmetric and the
    no-sequence name does not begin with the default name: for a list of
    dynamic axes that is [{DefaultBatchAxis}], or
    [{DefaultDynamicAxis, DefaultBatchAxis}], or [{a, DefaultBatchAxis}]
    with [a] an axis that the constructor gives back from its name and
    whose name begins with neither reserved name, the axes made from the
    internal name of the list are equal to the list. *)
Theorem DynamicAxes_of_internal_name_roundtrip (dynamicAxes : list Axis) :
  (∀ a, Axis_eqb a a = true) →
  (∀ a b, Axis_eqb a b = true → Axis_eqb b a = true) →
  String.prefix InternalDefaultDynamicAxisName InternalNoSequenceAxisName
    = false →
  dynamicAxes = [DefaultBatchAxis]
  ∨ dynamicAxes = [DefaultDynamicAxis; DefaultBatchAxis]
  ∨ (∃ a, dynamicAxes = [a; DefaultBatchAxis]
          ∧ Axis_eqb (AxisOfName (Name a)) a = true
          ∧ String.prefix InternalDefaultDynamicAxisName (Name a) = false
          ∧ String.prefix InternalNoSequenceAxisName (Name a) = false) →
  ∃ name,
    InternalDynamicAxisNameFromDynamicAxes dynamicAxes = Ok name
    ∧ Axes_eqb (DynamicAxesFromInternalDynamicAxisName name) dynamicAxes
      = true.
Proof.
  intros Hrefl Hsym Hnames Hshape.
  assert (DynamicAxesFromInternalDynamicAxisName InternalDefaultDynamicAxisName
          = [DefaultDynamicAxis; DefaultBatchAxis]) as Hdefault.
  { unfold DynamicAxesFromInternalDynamicAxisName.
    by rewrite substr_prefix, prefix_refl. }
  destruct Hshape as [->|[->|(a & -> & Hctor & Hpd & Hpn)]].
  - exists InternalNoSequenceAxisName.
    unfold InternalDynamicAxisNameFromDynamicAxes,
      DynamicAxesFromInternalDynamicAxisName. simpl.
    rewrite Hrefl, !substr_prefix, Hnames, prefix_refl. simpl.
    by rewrite Hrefl.
  - exists InternalDefaultDynamicAxisName.
    unfold InternalDynamicAxisNameFromDynamicAxes. simpl.
    rewrite andb_false_r, !Hrefl. simpl. rewrite Hdefault. simpl.
    by rewrite !Hrefl.
  - unfold InternalDynamicAxisNameFromDynamicAxes. simpl.
    rewrite andb_false_r, Hrefl, andb_true_r.
    destruct (Axis_eqb a DefaultDynamicAxis) eqn:Ea.
    + exists InternalDefaultDynamicAxisName. split; [done|].
      rewrite Hdefault. simpl. by rewrite (Hsym _ _ Ea), Hrefl.
    + exists (Name a). split; [done|].
      unfold DynamicAxesFromInternalDynamicAxisName.
      rewrite !substr_prefix, Hpd, Hpn. simpl. by rewrite Hctor, Hrefl.
Qed.
End DynamicAxesFacts.

Lemma DynamicAxes_of_internal_name_roundtrip_witness :
  (∀ a, @Axis_eqb NamedAxes a a = true)
  ∧ (∀ a b, @Axis_eqb NamedAxes a b = true → @Axis_eqb NamedAxes b a = true)
  ∧ String.prefix (@InternalDefaultDynamicAxisName NamedAxes)
      (@InternalNoSequenceAxisName NamedAxes) = false
  ∧ (∃ a : @Axis NamedAxes,
       ["speech"; "defaultBatchAxis"] = [a; @DefaultBatchAxis NamedAxes]
       ∧ @Axis_eqb NamedAxes (AxisOfName (Name a)) a = true
       ∧ String.prefix (@InternalDefaultDynamicAxisName NamedAxes) (Name a)
         = false
       ∧ String.prefix (@InternalNoSequenceAxisName NamedAxes) (Name a)
         = false)
  ∧ ∃ name,
      @InternalDynamicAxisNameFromDynamicAxes NamedAxes
        ["speech"; "defaultBatchAxis"] = Ok name
      ∧ @Axes_eqb NamedAxes
          (@DynamicAxesFromInternalDynamicAxisName NamedAxes name)
          ["speech"; "defaultBatchAxis"] = true.
Proof.
  assert (∀ a, @Axis_eqb NamedAxes a a = true) as Hrefl
    by exact String.eqb_refl.
  assert (∀ a b, @Axis_eqb NamedAxes a b = true → @Axis_eqb NamedAxes b a = true)
    as Hsym by (intros a b Hab; simpl in *; by rewrite String.eqb_sym).
  assert (String.prefix (@InternalDefaultDynamicAxisName NamedAxes)
            (@InternalNoSequenceAxisName NamedAxes) = false) as Hnames
    by reflexivity.
  assert (∃ a : @Axis NamedAxes,
       ["speech"; "defaultBatchAxis"] = [a; @DefaultBatchAxis NamedAxes]
       ∧ @Axis_eqb NamedAxes (AxisOfName (Name a)) a = true
       ∧ String.prefix (@InternalDefaultDynamicAxisName NamedAxes) (Name a)
         = false
       ∧ String.prefix (@InternalNoSequenceAxisName NamedAxes) (Name a)
         = false) as Hshape
    by (exists "speech"; repeat split; reflexivity).
  split_and!; [exact Hrefl|exact Hsym|exact Hnames|exact Hshape|].
  apply (@DynamicAxes_of_internal_name_roundtrip NamedAxes
           ["speech"; "defaultBatchAxis"] Hrefl Hsym Hnames).
  right; right. exact Hshape.
Defined.

Example InternalDynamicAxisName_examples :
  @InternalDynamicAxisNameFromDynamicAxes NamedAxes [] =
    Throw (LogicError "Empty dynamic axes set")
  ∧ @InternalDynamicAxisNameFromDynamicAxes NamedAxes ["defaultBatchAxis"]
    = Ok "__noSequenceAxis"
  ∧ @InternalDynamicAxisNameFromDynamicAxes NamedAxes
      ["defaultDynamicAxis"; "defaultBatchAxis"] = Ok "*"
  ∧ @InternalDynamicAxisNameFromDynamicAxes NamedAxes
      ["speech"; "defaultBatchAxis"] = Ok "speech"
  ∧ @DynamicAxesFromInternalDynamicAxisName NamedAxes "speech"
    = ["speech"; "defaultBatchAxis"].
Proof. by vm_compute. Qed.

(** ** Network reuse and backward-state staleness *)

Lemma DetermineInputs_total (g : gmap nat (list CNTKVariable)) root V :
  ∃ inputs, DetermineInputs g root V = Some inputs.
Proof.
  unfold DetermineInputs.
  destruct (Traverse_terminates g (DetermineInputs_functor g) root V ([], ∅))
    as (V' & acc & ->).
  simpl. eauto.
Qed.

Section OrchestratorFacts.
Context `{ExecutionKernel}.

Lemma BuildComputationNetwork_Ok cf device backpropRoots outputs allocate
    origin0 cf' net origin :
  BuildComputationNetwork cf device backpropRoots outputs allocate origin0
  = Ok (cf', net, origin) →
  origin = origin0
  ∧ cf' = set_network cf net backpropRoots outputs allocate
  ∧ ∃ stamps,
      kernel_build (m_allPrimitiveFunctions cf) (RootFunction cf)
        backpropRoots outputs device allocate = inr stamps
      ∧ net = mkNetwork device (m_allPrimitiveFunctions cf) stamps.
Proof.
  unfold BuildComputationNetwork.
  destruct (kernel_build _ _ _ _ _ _) as [e|stamps]; [done|].
  intros [= <- <- <-]. eauto.
Qed.

Lemma GetComputationNetwork_Ok cf device backpropRoots outputs allocate
    cf' net origin :
  GetComputationNetwork cf device backpropRoots outputs allocate
  = Ok (cf', net, origin) →
  m_computationNetwork cf' = Some net
  ∧ net_device net = device
  ∧ m_currentBackpropRoots cf' = backpropRoots
  ∧ m_currentOutputs cf' = outputs
  ∧ RootFunction cf' = RootFunction cf
  ∧ m_allPrimitiveFunctions cf' = m_allPrimitiveFunctions cf
  ∧ match origin with
    | Built =>
        m_computationNetwork cf = None
        ∧ ∃ stamps,
            kernel_build (m_allPrimitiveFunctions cf) (RootFunction cf)
              backpropRoots outputs device allocate = inr stamps
            ∧ net = mkNetwork device (m_allPrimitiveFunctions cf) stamps
    | Rebuilt =>
        is_Some (m_computationNetwork cf)
        ∧ (backpropRoots ≠ m_currentBackpropRoots cf
           ∨ outputs ≠ m_currentOutputs cf)
        ∧ ∃ stamps,
            kernel_build (m_allPrimitiveFunctions cf) (RootFunction cf)
              backpropRoots outputs device allocate = inr stamps
            ∧ net = mkNetwork device (m_allPrimitiveFunctions cf) stamps
    | Reused =>
        m_computationNetwork cf = Some net
        ∧ backpropRoots = m_currentBackpropRoots cf
        ∧ outputs = m_currentOutputs cf
    end.
Proof.
  unfold GetComputationNetwork.
  destruct (m_computationNetwork cf) as [net0|] eqn:Enet.
  - case_bool_decide as Hdev; [done|].
    case_bool_decide as Hcfg.
    + intros (-> & -> & stamps & HB & ->)%BuildComputationNetwork_Ok.
      simpl. split_and!; eauto.
    + intros [= <- <- <-]. simpl.
      split_and!; try done.
      * destruct (decide (backpropRoots = m_currentBackpropRoots cf)); [done|].
        exfalso. apply Hcfg. by left.
      * destruct (decide (outputs = m_currentOutputs cf)); [done|].
        exfalso. apply Hcfg. by right.
  - intros (-> & -> & stamps & HB & ->)%BuildComputationNetwork_Ok.
    simpl. split_and!; eauto.
Qed.

Lemma Forward_checked this g cf arguments outputs device retain :
  Forward_checks g cf arguments outputs →
  Forward this g cf arguments outputs device retain
  = Forward_run this cf arguments outputs device retain.
Proof.
  intros (inputs & HD & Hph & Hargs & Hall & Houts).
  unfold Forward. rewrite HD. simpl. rewrite Hph, Hall.
  rewrite (bool_decide_eq_true_2 _ Hargs), (bool_decide_eq_true_2 _ Houts).
  done.
Qed.

Lemma Forward_Ok_checks this g cf arguments outputs device retain r :
  Forward this g cf arguments outputs device retain = Ok r →
  Forward_checks g cf arguments outputs.
Proof.
  unfold Forward, Forward_checks.
  destruct (DetermineInputs0 g cf) as [inputs|]; simpl; [|done].
  destruct (existsb IsPlaceholder inputs) eqn:Hph; [done|].
  case_bool_decide as Hargs; simpl; [|done].
  destruct (forallb _ _) eqn:Hall; simpl; [|done].
  case_bool_decide as Houts; simpl; [|done].
  intros _. by exists inputs.
Qed.

Lemma Forward_run_Ok this cf arguments outputs device retain cf2 values state :
  Forward_run this cf arguments outputs device retain
  = Ok (cf2, values, state) →
  ∃ cf1 net origin,
    GetComputationNetwork cf device retain outputs true = Ok (cf1, net, origin)
    ∧ values = (kernel_forward net arguments outputs).1
    ∧ cf2 = set_network cf1
              (mkNetwork (net_device net) (net_functions net)
                 (kernel_forward net arguments outputs).2)
              (m_currentBackpropRoots cf1) (m_currentOutputs cf1)
              (m_networkMatricesAllocated cf1)
    ∧ state = (if bool_decide (retain = ∅) then None
               else Some (mkBackPropState this device
                            (GetCurrentBackpropRootsTimeStamps cf2))).
Proof.
  unfold Forward_run.
  destruct (GetComputationNetwork cf device retain outputs true)
    as [[[cf1 net] origin]| |] eqn:EG; simpl; [|done..].
  destruct (kernel_forward net arguments outputs) as [vals stamps] eqn:EK.
  intros [= <- <- <-]. exists cf1, net, origin. rewrite EK. by split_and!.
Qed.

Lemma Forward_Ok this g cf arguments outputs device retain cf2 values state :
  Forward this g cf arguments outputs device retain
  = Ok (cf2, values, state) →
  ∃ cf1 net origin net',
    GetComputationNetwork cf device retain outputs true = Ok (cf1, net, origin)
    ∧ m_computationNetwork cf2 = Some net'
    ∧ net_device net' = device
    ∧ m_currentBackpropRoots cf2 = retain
    ∧ m_currentOutputs cf2 = outputs
    ∧ state = (if bool_decide (retain = ∅) then None
               else Some (mkBackPropState this device
                            (GetCurrentBackpropRootsTimeStamps cf2))).
Proof.
  intros HF. pose proof (Forward_Ok_checks _ _ _ _ _ _ _ _ HF) as Hchecks.
  rewrite (Forward_checked _ _ _ _ _ _ _ Hchecks) in HF.
  destruct (Forward_run_Ok _ _ _ _ _ _ _ _ _ HF)
    as (cf1 & net & origin & EG & _ & -> & Hstate).
  destruct (GetComputationNetwork_Ok _ _ _ _ _ _ _ _ EG)
    as (_ & Hdev & Hroots & Houts & _).
  eexists cf1, net, origin, _. split_and!; try done.
Qed.

Lemma GetComputationNetwork_not_OutOfFuel cf device backpropRoots outputs
    allocate :
  GetComputationNetwork cf device backpropRoots outputs allocate ≠ OutOfFuel.
Proof.
  unfold GetComputationNetwork, BuildComputationNetwork.
  destruct (m_computationNetwork cf) as [net0|].
  - repeat case_bool_decide; try done.
    by destruct (kernel_build _ _ _ _ _ _).
  - by destruct (kernel_build _ _ _ _ _ _).
Qed.

Lemma Forward_not_OutOfFuel this g cf arguments outputs device retain :
  Forward this g cf arguments outputs device retain ≠ OutOfFuel.
Proof.
  unfold Forward, DetermineInputs0.
  destruct (DetermineInputs_total g (RootFunction cf) ∅) as [inputs ->].
  simpl.
  repeat (match goal with
          | |- context [if ?b then Throw _ else _] => destruct b; [done|]
          end).
  unfold Forward_run.
  pose proof (GetComputationNetwork_not_OutOfFuel cf device retain outputs true)
    as HG.
  destruct (GetComputationNetwork cf device retain outputs true)
    as [[[cf1 net] origin]| |]; simpl; [|done..].
  by destruct (kernel_forward _ _ _).
Qed.
End OrchestratorFacts.

(** C6.  After a [Forward] call that succeeded, the composite records that
    call's backprop roots and outputs, and from then on
    [GetComputationNetwork] returns the cached network for reuse exactly
    when the requested backprop-roots set and outputs set equal the
    recorded ones; for any other sets the network it returns is one built
    for the requested sets.  A later [Forward] call returns the values of
    the run of the network so obtained.  In particular, after a call for
    [{A}], the call for [{A, B}] with the same arguments, device and roots
    does not reuse the network built for [{A}]: the network is rebuilt for
    [{A, B}] and the call returns the values of its run, unless the
    construction itself fails, and then the call raises that error. *)
Theorem cached_network_reused_only_for_recorded_sets `{ExecutionKernel}
    (this : nat) (g : gmap nat (list CNTKVariable)) (cf0 cf1 : CompositeFunction)
    (arguments1 : gmap CNTKVariable Value) (outputs1 retain1 : gset CNTKVariable)
    (device1 : DeviceDescriptor) (values1 : gmap CNTKVariable Value)
    (state1 : option CNTKBackPropState) :
  Forward this g cf0 arguments1 outputs1 device1 retain1
  = Ok (cf1, values1, state1) →
  m_currentBackpropRoots cf1 = retain1
  ∧ m_currentOutputs cf1 = outputs1
  ∧ (∀ device backpropRoots outputs allocate cf2 net origin,
       GetComputationNetwork cf1 device backpropRoots outputs allocate
       = Ok (cf2, net, origin) →
       (origin = Reused ↔
          backpropRoots = m_currentBackpropRoots cf1
          ∧ outputs = m_currentOutputs cf1)
       ∧ (origin = Reused → m_computationNetwork cf1 = Some net)
       ∧ (origin ≠ Reused →
          ∃ stamps,
            kernel_build (m_allPrimitiveFunctions cf1) (RootFunction cf1)
              backpropRoots outputs device allocate = inr stamps
            ∧ net = mkNetwork device (m_allPrimitiveFunctions cf1) stamps))
  ∧ (∀ arguments2 outputs2 device2 retain2 cf2 values2 state2,
       Forward this g cf1 arguments2 outputs2 device2 retain2
       = Ok (cf2, values2, state2) →
       ∃ cf' net origin,
         GetComputationNetwork cf1 device2 retain2 outputs2 true
         = Ok (cf', net, origin)
         ∧ values2 = (kernel_forward net arguments2 outputs2).1
         ∧ m_currentBackpropRoots cf2 = retain2
         ∧ m_currentOutputs cf2 = outputs2)
  ∧ (∀ A B,
       outputs1 = {[A]} → A ≠ B →
       IsOutput B = true → Owner B ∈ m_allPrimitiveFunctions cf1 →
       match kernel_build (m_allPrimitiveFunctions cf1) (RootFunction cf1)
               retain1 {[A; B]} device1 true with
       | inl e =>
           Forward this g cf1 arguments1 {[A; B]} device1 retain1 = Throw e
       | inr stamps =>
           GetComputationNetwork cf1 device1 retain1 {[A; B]} true
           = Ok (set_network cf1
                   (mkNetwork device1 (m_allPrimitiveFunctions cf1) stamps)
                   retain1 {[A; B]} true,
                 mkNetwork device1 (m_allPrimitiveFunctions cf1) stamps,
                 Rebuilt)
           ∧ ∃ cf2 state2,
               Forward this g cf1 arguments1 {[A; B]} device1 retain1
               = Ok (cf2,
                     (kernel_forward
                        (mkNetwork device1 (m_allPrimitiveFunctions cf1) stamps)
                        arguments1 {[A; B]}).1,
                     state2)
               ∧ m_currentOutputs cf2 = {[A; B]}
       end).
Proof.
  intros HF.
  pose proof (Forward_Ok_checks _ _ _ _ _ _ _ _ HF) as Hchecks0.
  pose proof HF as HF'.
  rewrite (Forward_checked _ _ _ _ _ _ _ Hchecks0) in HF'.
  destruct (Forward_run_Ok _ _ _ _ _ _ _ _ _ HF')
    as (c & n & o & EG0 & _ & Hcf1 & _).
  destruct (GetComputationNetwork_Ok _ _ _ _ _ _ _ _ EG0)
    as (_ & Hdev0 & Hroots0 & Houts0 & Hroot0 & Hall0 & _).
  assert (m_currentBackpropRoots cf1 = retain1) as Hroots by (by subst cf1).
  assert (m_currentOutputs cf1 = outputs1) as Houts by (by subst cf1).
  assert (RootFunction cf1 = RootFunction cf0) as Hroot by (by subst cf1).
  assert (m_allPrimitiveFunctions cf1 = m_allPrimitiveFunctions cf0) as Hall
    by (by subst cf1).
  assert (∃ net1, m_computationNetwork cf1 = Some net1
                  ∧ net_device net1 = device1) as (net1 & Hnet1 & Hdev1)
    by (subst cf1; eauto).
  split_and!; [done|done| | |].
  - intros device backpropRoots outputs allocate cf2 net origin HG.
    destruct (GetComputationNetwork_Ok _ _ _ _ _ _ _ _ HG)
      as (_ & _ & _ & _ & _ & _ & Ho).
    destruct origin.
    + destruct Ho as [Hnone _]. congruence.
    + destruct Ho as (Hsome & -> & ->). by split_and!.
    + destruct Ho as (_ & Hdiff & Hbuilt). split_and!; [|done|done].
      split; [done|]. intros [-> ->]. by destruct Hdiff.
  - intros arguments2 outputs2 device2 retain2 cf2 values2 state2 HF2.
    destruct (Forward_Ok _ _ _ _ _ _ _ _ _ _ HF2)
      as (_ & _ & _ & _ & _ & _ & _ & Hr2 & Ho2 & _).
    pose proof (Forward_Ok_checks _ _ _ _ _ _ _ _ HF2) as Hchecks2.
    rewrite (Forward_checked _ _ _ _ _ _ _ Hchecks2) in HF2.
    destruct (Forward_run_Ok _ _ _ _ _ _ _ _ _ HF2)
      as (c2 & n2 & o2 & EG2 & Hv2 & _).
    by exists c2, n2, o2.
  - intros A B -> HAB HoutB HownB.
    assert (Forward_checks g cf1 arguments1 {[A; B]}) as Hchecks1.
    { destruct Hchecks0 as (inputs & HD & Hph & Hargs & Hin & Hout).
      exists inputs. unfold DetermineInputs0 in *. rewrite Hroot.
      split_and!; [done..|].
      intros v [Hv|Hv]%elem_of_union; apply elem_of_singleton in Hv as ->.
      - rewrite Hall. apply Hout. set_solver.
      - done. }
    rewrite (Forward_checked _ _ _ _ _ _ _ Hchecks1).
    assert (GetComputationNetwork cf1 device1 retain1 {[A; B]} true
            = BuildComputationNetwork cf1 device1 retain1 {[A; B]} true Rebuilt)
      as HG.
    { unfold GetComputationNetwork. rewrite Hnet1.
      rewrite bool_decide_eq_false_2 by (intros Hne; by apply Hne).
      rewrite bool_decide_eq_true_2; [done|]. right. rewrite Houts.
      intros Heq. apply HAB. symmetry.
      assert (B ∈ ({[A]} : gset CNTKVariable)) as HB
        by (rewrite <- Heq; set_solver).
      by apply elem_of_singleton in HB. }
    unfold Forward_run. rewrite HG. unfold BuildComputationNetwork.
    destruct (kernel_build _ _ _ _ _ _) as [e|stamps]; simpl; [done|].
    split; [done|].
    destruct (kernel_forward
                (mkNetwork device1 (m_allPrimitiveFunctions cf1) stamps)
                arguments1 {[A; B]}) as [vals stamps'] eqn:EK. simpl.
    eexists _, _. split; reflexivity.
Qed.

Lemma cached_network_reused_only_for_recorded_sets_witness :
  ∃ cf1 values1 state1,
    @Forward counting_kernel 100 add_mul_graph add_mul_composite
      add_mul_arguments {[var_z]} (mkDevice 0 CPU) ∅
    = Ok (cf1, values1, state1)
    ∧ (
    m_currentBackpropRoots cf1 = (∅ : gset CNTKVariable)
    ∧ m_currentOutputs cf1 = ({[var_z]} : gset CNTKVariable)
    ∧ (∀ device backpropRoots outputs allocate cf2 net origin,
         @GetComputationNetwork counting_kernel cf1 device backpropRoots outputs allocate
         = Ok (cf2, net, origin) →
         (origin = Reused ↔
            backpropRoots = m_currentBackpropRoots cf1
            ∧ outputs = m_currentOutputs cf1)
         ∧ (origin = Reused → m_computationNetwork cf1 = Some net)
         ∧ (origin ≠ Reused →
            ∃ stamps,
              @kernel_build counting_kernel (m_allPrimitiveFunctions cf1) (RootFunction cf1)
                backpropRoots outputs device allocate = inr stamps
              ∧ net = mkNetwork device (m_allPrimitiveFunctions cf1) stamps))
    ∧ (∀ arguments2 outputs2 device2 retain2 cf2 values2 state2,
         @Forward counting_kernel 100 add_mul_graph cf1 arguments2 outputs2 device2 retain2
         = Ok (cf2, values2, state2) →
         ∃ cf' net origin,
           @GetComputationNetwork counting_kernel cf1 device2 retain2 outputs2 true
           = Ok (cf', net, origin)
           ∧ values2 = (@kernel_forward counting_kernel net arguments2 outputs2).1
           ∧ m_currentBackpropRoots cf2 = retain2
           ∧ m_currentOutputs cf2 = outputs2)
    ∧ (∀ A B,
         ({[var_z]} : gset CNTKVariable) = {[A]} → A ≠ B →
         IsOutput B = true → Owner B ∈ m_allPrimitiveFunctions cf1 →
         match @kernel_build counting_kernel (m_allPrimitiveFunctions cf1) (RootFunction cf1)
                 (∅ : gset CNTKVariable) {[A; B]} (mkDevice 0 CPU) true with
         | inl e =>
             @Forward counting_kernel 100 add_mul_graph cf1 add_mul_arguments {[A; B]} (mkDevice 0 CPU) (∅ : gset CNTKVariable) = Throw e
         | inr stamps =>
             @GetComputationNetwork counting_kernel cf1 (mkDevice 0 CPU) (∅ : gset CNTKVariable) {[A; B]} true
             = Ok (set_network cf1
                     (mkNetwork (mkDevice 0 CPU) (m_allPrimitiveFunctions cf1) stamps)
                     (∅ : gset CNTKVariable) {[A; B]} true,
                   mkNetwork (mkDevice 0 CPU) (m_allPrimitiveFunctions cf1) stamps,
                   Rebuilt)
             ∧ ∃ cf2 state2,
                 @Forward counting_kernel 100 add_mul_graph cf1 add_mul_arguments {[A; B]} (mkDevice 0 CPU) (∅ : gset CNTKVariable)
                 = Ok (cf2,
                       (@kernel_forward counting_kernel
                          (mkNetwork (mkDevice 0 CPU) (m_allPrimitiveFunctions cf1) stamps)
                          add_mul_arguments {[A; B]}).1,
                       state2)
                 ∧ m_currentOutputs cf2 = {[A; B]}
         end)).
Proof.
  destruct (@Forward counting_kernel 100 add_mul_graph add_mul_composite
              add_mul_arguments {[var_z]} (mkDevice 0 CPU) ∅)
    as [[[cf1 values1] state1]|e|] eqn:HF;
    [|by vm_compute in HF..].
  exists cf1, values1, state1. split; [reflexivity|].
  apply (@cached_network_reused_only_for_recorded_sets counting_kernel
           100 add_mul_graph add_mul_composite cf1 add_mul_arguments
           {[var_z]} ∅ (mkDevice 0 CPU) values1 state1 HF).
Defined.

(** The rebuild-on-change scenario: outputs [{z}], then [{z, out}]: the
    second call succeeds on a network rebuilt for both outputs, and a third
    call for [{z, out}] reuses it. *)
Example forward_with_more_outputs_rebuilds :
  match @Forward counting_kernel 100 add_mul_graph add_mul_composite
          add_mul_arguments {[var_z]} (mkDevice 0 CPU) ∅ with
  | Ok (cf1, _, _) =>
      match @GetComputationNetwork counting_kernel cf1 (mkDevice 0 CPU) ∅
              {[var_z; var_out]} true,
            @Forward counting_kernel 100 add_mul_graph cf1
              add_mul_arguments {[var_z; var_out]} (mkDevice 0 CPU) ∅ with
      | Ok (_, _, Rebuilt), Ok (cf2, _, _) =>
          m_currentOutputs cf2 = {[var_z; var_out]}
          ∧ match @GetComputationNetwork counting_kernel cf2 (mkDevice 0 CPU)
                    ∅ {[var_z; var_out]} true with
            | Ok (_, _, Reused) => True
            | _ => False
            end
      | _, _ => False
      end
  | _ => False
  end.
Proof. by vm_compute. Qed.

(** C5.  For a backprop state returned by a [Forward] call that retained
    state, and the composite on the same device at any later time:
    [Backward] raises the staleness error whenever some root of the state's
    snapshot has a current forward timestamp that differs from the
    snapshot, and [Backward] returns gradients only if every timestamp of
    the snapshot equals the current one.  For an arbitrary state,
    [Backward] returns gradients only if the state is of this function and
    of the network's device and is fresh. *)
Theorem Backward_rejects_stale_state `{ExecutionKernel}
    (this : nat) (g : gmap nat (list CNTKVariable)) (cf0 cf1 cf : CompositeFunction)
    (arguments : gmap CNTKVariable Value) (outputs retain : gset CNTKVariable)
    (device : DeviceDescriptor) (values : gmap CNTKVariable Value)
    (state : CNTKBackPropState) (net : ComputationNetwork) :
  Forward this g cf0 arguments outputs device retain
  = Ok (cf1, values, Some state) →
  m_computationNetwork cf = Some net →
  net_device net = device →
  (∀ rootGradientValues requested,
     (∃ root ts, BackpropRootsForwardTimeStamps state !! root = Some ts
                 ∧ net_timeStamp net root ≠ ts) →
     Backward this g cf state rootGradientValues requested
     = Throw StaleBackPropState)
  ∧ (∀ rootGradientValues requested gradients,
       Backward this g cf state rootGradientValues requested = Ok gradients →
       ∀ root ts, BackpropRootsForwardTimeStamps state !! root = Some ts →
                  net_timeStamp net root = ts)
  ∧ (∀ state' rootGradientValues requested gradients,
       Backward this g cf state' rootGradientValues requested = Ok gradients →
       bp_Function state' = this
       ∧ bp_Device state' = net_device net
       ∧ ∀ root ts, BackpropRootsForwardTimeStamps state' !! root = Some ts →
                    net_timeStamp net root = ts).
Proof.
  intros HF Hnet Hdev.
  destruct (Forward_Ok _ _ _ _ _ _ _ _ _ _ HF)
    as (c & n & o & net1 & _ & _ & _ & _ & _ & Hstate).
  case_bool_decide; [done|]. injection Hstate as ->.
  assert (∀ state' rootGradientValues requested gradients,
       Backward this g cf state' rootGradientValues requested = Ok gradients →
       bp_Function state' = this
       ∧ bp_Device state' = net_device net
       ∧ ∀ root ts, BackpropRootsForwardTimeStamps state' !! root = Some ts →
                    net_timeStamp net root = ts) as Hok.
  { intros state' rg req grads. unfold Backward. rewrite Hnet.
    case_bool_decide as Hf; [done|].
    case_bool_decide as Hd; [done|].
    case_bool_decide as Hfresh; simpl; [|done].
    intros _. split_and!; [done|done|]. intros root ts Hroot.
    by apply (Hfresh root ts). }
  split_and!; [|intros rg req grads HB; by apply (Hok _ _ _ _ HB)|exact Hok].
  intros rg req (root & ts & Hroot & Hts).
  unfold Backward. rewrite Hnet. simpl.
  rewrite bool_decide_eq_false_2 by (intros Hne; by apply Hne).
  rewrite bool_decide_eq_false_2 by (intros Hne; by apply Hne).
  rewrite bool_decide_eq_false_2; [done|].
  intros Hfresh. by apply Hts, (Hfresh root ts).
Qed.

Lemma Backward_rejects_stale_state_witness :
  ∃ cf1 values state cf2 values2 state2 net,
    @Forward counting_kernel 100 add_mul_graph add_mul_composite
      add_mul_arguments {[var_out]} (mkDevice 0 CPU) {[var_out]}
    = Ok (cf1, values, Some state)
    ∧ @Forward counting_kernel 100 add_mul_graph cf1
        add_mul_arguments {[var_out]} (mkDevice 0 CPU) {[var_out]}
      = Ok (cf2, values2, state2)
    ∧ m_computationNetwork cf2 = Some net
    ∧ net_device net = mkDevice 0 CPU
    ∧ (∀ rootGradientValues requested,
         (∃ root ts, BackpropRootsForwardTimeStamps state !! root = Some ts
                     ∧ net_timeStamp net root ≠ ts) →
         @Backward counting_kernel 100 add_mul_graph cf2 state
           rootGradientValues requested = Throw StaleBackPropState)
    ∧ (∀ rootGradientValues requested gradients,
         @Backward counting_kernel 100 add_mul_graph cf2 state
           rootGradientValues requested = Ok gradients →
         ∀ root ts, BackpropRootsForwardTimeStamps state !! root = Some ts →
                    net_timeStamp net root = ts)
    ∧ (∀ state' rootGradientValues requested gradients,
         @Backward counting_kernel 100 add_mul_graph cf2 state'
           rootGradientValues requested = Ok gradients →
         bp_Function state' = 100
         ∧ bp_Device state' = net_device net
         ∧ ∀ root ts, BackpropRootsForwardTimeStamps state' !! root = Some ts →
                      net_timeStamp net root = ts).
Proof.
  eexists _, _, _, _, _, _, _.
  split; [vm_compute; reflexivity|].
  split; [vm_compute; reflexivity|].
  split; [vm_compute; reflexivity|].
  split; [vm_compute; reflexivity|].
  eapply (@Backward_rejects_stale_state counting_kernel 100 add_mul_graph
            add_mul_composite _ _ add_mul_arguments {[var_out]} {[var_out]}
            (mkDevice 0 CPU)).
  - vm_compute; reflexivity.
  - vm_compute; reflexivity.
  - vm_compute; reflexivity.
Defined.

(** The staleness scenario: the state of a first forward call is accepted
    right after that call and rejected after a second forward call on the
    same root. *)
Example backward_after_second_forward_is_stale :
  match @Forward counting_kernel 100 add_mul_graph add_mul_composite
          add_mul_arguments {[var_out]} (mkDevice 0 CPU) {[var_out]} with
  | Ok (cf1, _, Some state) =>
      @Backward counting_kernel 100 add_mul_graph cf1 state
        {[var_out := 1%Z]} {[var_x; var_y; var_w]}
      = Ok {[var_out := 1%Z]}
      ∧ match @Forward counting_kernel 100 add_mul_graph cf1
                add_mul_arguments {[var_out]} (mkDevice 0 CPU) {[var_out]} with
        | Ok (cf2, _, _) =>
            @Backward counting_kernel 100 add_mul_graph cf2 state
              {[var_out := 1%Z]} {[var_x; var_y; var_w]}
            = Throw StaleBackPropState
        | _ => False
        end
  | _ => False
  end.
Proof. by vm_compute. Qed.

(** * Further properties of the header's functions *)

(** ** Traverse with a visited set that is not empty *)

Lemma parents_first_reachable_avoiding (g : gmap nat (list CNTKVariable))
    (V : gset nat) root seen l :
  (∀ p, p ∈ seen → reachable_avoiding g V root p) →
  (∀ x, x ∈ l → x ∉ V) →
  parents_first g seen l → ∀ x, x ∈ l → reachable_avoiding g V root x.
Proof.
  revert seen. induction l as [|y l IH]; intros seen Hseen Hfresh; simpl.
  { intros _ x Hx. by apply elem_of_nil in Hx. }
  intros [(p & Hp & He) Hl] x Hx.
  assert (reachable_avoiding g V root y) as Hy.
  { eapply rtc_r; [apply Hseen, Hp|]. split; [done|]. apply Hfresh. set_solver. }
  apply elem_of_cons in Hx as [->|Hx]; [done|].
  eapply (IH ({[y]} ∪ seen)); [| |exact Hl|exact Hx].
  - intros q [->%elem_of_singleton|Hq]%elem_of_union; auto.
  - intros z Hz. apply Hfresh. set_solver.
Qed.

(** X1.  With any set of already visited functions, the functor is invoked
    exactly on the functions that the root reaches along a path all of
    whose functions after the root are outside the supplied set. *)
Theorem Traverse_invokes_exactly_unvisited_paths
    (g : gmap nat (list CNTKVariable)) (rootFunction : nat)
    (visitedFunctions : gset nat) :
  ∃ visited' calls,
    visit_order g rootFunction visitedFunctions = Some (visited', calls)
    ∧ ∀ f, f ∈ calls ↔ reachable_avoiding g visitedFunctions rootFunction f.
Proof.
  destruct (visit_order_spec g rootFunction visitedFunctions)
    as (V' & new & Hv & Hpost).
  exists V', (rootFunction :: new). split; [done|].
  destruct (visit_order_facts g _ _ _ _ Hv) as (_ & _ & HV' & _ & _ & Hcl & _).
  destruct Hpost as (_ & _ & Hfresh & Hpf & _).
  intros f. split.
  - intros [->|Hf]%elem_of_cons; [apply rtc_refl|].
    apply (parents_first_reachable_avoiding g visitedFunctions
             rootFunction {[rootFunction]} new); try done.
    + intros p ->%elem_of_singleton. apply rtc_refl.
    + intros x Hx%Hfresh. set_solver.
  - intros Hreach. revert f Hreach. apply rtc_ind_r; [set_solver|].
    intros a b _ [He Hb] IH.
    specialize (Hcl a b IH He). rewrite HV' in Hcl. set_solver.
Qed.

(** ** Collect into a set that is not empty *)

Lemma edge_closed_spec (g : gmap nat (list CNTKVariable)) (W : gset nat) :
  edge_closed g W ↔ ∀ x c, x ∈ W → edge g x c → c ∈ W.
Proof.
  unfold edge_closed, set_Forall. split.
  - intros Hcl x c Hx (v & Hv & Hout & <-).
    specialize (Hcl x Hx). rewrite Forall_forall in Hcl. by apply Hcl.
  - intros Hcl x Hx. apply Forall_forall. intros v Hv Hout.
    apply (Hcl x); [done|]. by exists v.
Qed.

Lemma Collect_into_closed (g : gmap nat (list CNTKVariable)) root (W : gset nat) :
  edge_closed g W →
  ∃ W', Collect g root W = Some W'
        ∧ (∀ f, f ∈ W' ↔ f ∈ W ∨ reachable g root f)
        ∧ edge_closed g W'.
Proof.
  intros Hcl0. pose proof (proj1 (edge_closed_spec g W) Hcl0) as Hcl.
  destruct (visit_order_spec g root W) as (V' & new & Hv & Hpost).
  pose proof (Traverse_post_reachable g _ _ _ _ Hpost) as Hreach.
  destruct Hpost as (HV' & _ & _ & _ & Hclnew).
  assert (∀ x c, x ∈ V' → edge g x c → c ∈ V') as Hcl'.
  { intros x c Hx He. rewrite HV' in Hx.
    apply elem_of_union in Hx as [[Hx%elem_of_singleton|Hx]%elem_of_union|Hx].
    - apply (Hclnew x c); auto.
    - rewrite HV'. specialize (Hcl x c Hx He). set_solver.
    - apply (Hclnew x c); [|done]. right. by apply elem_of_list_to_set in Hx. }
  exists V'. split_and!.
  - by eapply Collect_of_visit_order.
  - intros f. split.
    + rewrite HV', !elem_of_union, elem_of_singleton.
      intros [[->|Hf]|Hf%elem_of_list_to_set];
        [right; apply rtc_refl|by left|right; by apply Hreach].
    + intros [Hf|Hf]; [rewrite HV'; set_solver|].
      apply reachable_closed with (g := g) (root := root); [|done..].
      rewrite HV'. set_solver.
  - by apply edge_closed_spec.
Qed.

(** X2.  Into a set that contains the owner of every Output input of its
    functions, [Collect] adds exactly the reachable closure of the root,
    the result is again such a set, and a set of this kind that already
    contains the root is left as it is. *)
Theorem Collect_into_closed_set_adds_closure
    (g : gmap nat (list CNTKVariable)) (rootFunction : nat)
    (functions : gset nat) :
  edge_closed g functions →
  ∃ functions',
    Collect g rootFunction functions = Some functions'
    ∧ (∀ f, f ∈ functions' ↔ f ∈ functions ∨ reachable g rootFunction f)
    ∧ edge_closed g functions'
    ∧ (rootFunction ∈ functions → functions' = functions).
Proof.
  intros Hcl.
  destruct (Collect_into_closed g rootFunction functions Hcl)
    as (W' & HC & Hmem & Hcl').
  exists W'. split_and!; [done..|].
  intros Hroot. apply set_eq. intros f. rewrite Hmem. split; [|by left].
  intros [Hf|Hf]; [done|].
  apply reachable_closed with (g := g) (root := rootFunction); [done| |done].
  by apply edge_closed_spec.
Qed.

Lemma Collect_into_closed_set_adds_closure_witness :
  edge_closed diamond_graph {[1]}
  ∧ ∃ functions',
      Collect diamond_graph 3 {[1]} = Some functions'
      ∧ (∀ f, f ∈ functions' ↔
              f ∈ ({[1]} : gset nat) ∨ reachable diamond_graph 3 f)
      ∧ edge_closed diamond_graph functions'
      ∧ (3 ∈ ({[1]} : gset nat) → functions' = {[1]}).
Proof.
  assert (edge_closed diamond_graph {[1]}) as Hcl
    by (apply (bool_decide_unpack _); by vm_compute).
  split; [exact Hcl|].
  apply (Collect_into_closed_set_adds_closure diamond_graph 3 {[1]} Hcl).
Defined.

Lemma edge_closed_empty (g : gmap nat (list CNTKVariable)) : edge_closed g ∅.
Proof. apply edge_closed_spec. set_solver. Qed.

(** X3.  Collecting from a second root into the set collected from a
    first one gives the union of the two reachable closures, whichever
    root comes first; collecting twice from the same root adds nothing. *)
Theorem Collect_from_two_roots_is_union_of_closures
    (g : gmap nat (list CNTKVariable)) (root1 root2 : nat) :
  ∃ first second first' second',
    Collect g root1 ∅ = Some first
    ∧ Collect g root2 first = Some second
    ∧ Collect g root2 ∅ = Some first'
    ∧ Collect g root1 first' = Some second'
    ∧ second = second'
    ∧ (∀ f, f ∈ second ↔ reachable g root1 f ∨ reachable g root2 f)
    ∧ Collect g root1 first = Some first.
Proof.
  destruct (Collect_into_closed g root1 ∅ (edge_closed_empty g))
    as (W1 & HC1 & Hm1 & Hcl1).
  destruct (Collect_into_closed g root2 W1 Hcl1) as (W2 & HC2 & Hm2 & _).
  destruct (Collect_into_closed g root2 ∅ (edge_closed_empty g))
    as (W1' & HC1' & Hm1' & Hcl1').
  destruct (Collect_into_closed g root1 W1' Hcl1') as (W2' & HC2' & Hm2' & _).
  destruct (Collect_into_closed g root1 W1 Hcl1) as (W3 & HC3 & Hm3 & _).
  assert (∀ f, f ∈ W2 ↔ reachable g root1 f ∨ reachable g root2 f) as Hunion.
  { intros f. rewrite Hm2, Hm1. set_solver. }
  exists W1, W2, W1', W2'. split_and!; try done.
  - apply set_eq. intros f. rewrite Hunion, Hm2', Hm1'. set_solver.
  - rewrite HC3. f_equal. apply set_eq. intros f. rewrite Hm3, Hm1. set_solver.
Qed.

(** ** DetermineInputs: the root's inputs, and the inputs of a composite *)


Lemma DetermineInputs_of_visit_order (g : gmap nat (list CNTKVariable))
    root V V' calls :
  visit_order g root V = Some (V', calls) →
  ∃ inputs,
    DetermineInputs g root V = Some inputs
    ∧ inputs = (foldl (λ s f, DetermineInputs_functor g f s) ([], ∅) calls).1
    ∧ ∀ v, v ∈ inputs ↔ IsOutput v = false ∧ ∃ f, f ∈ calls ∧ v ∈ Inputs g f.
Proof.
  intros Hv.
  pose proof (Traverse_of_visit_order g (DetermineInputs_functor g)
                _ _ ([], ∅) _ _ Hv) as HT.
  eexists. split_and!; [unfold DetermineInputs; by rewrite HT|done|].
  rewrite DetermineInputs_functor_fold.
  destruct (DetermineInputs_step_inv (encountered_inputs g calls))
    as (_ & _ & Hmem & _).
  intros v. rewrite Hmem. unfold encountered_inputs.
  rewrite list_elem_of_bind. naive_solver.
Qed.


(** X5.  For the composite that [Create] makes from a root, the inputs
    that [DetermineInputs()] returns are exactly the non-Output inputs of
    the owned functions, and every input of an owned function is either one
    of them or an Output of an owned function. *)
Theorem Create_inputs_are_the_free_variables
    (g : gmap nat (list CNTKVariable)) (rootFunction : nat)
    (name uid : string) :
  ∃ cf inputs,
    Create g rootFunction name uid = Some cf
    ∧ DetermineInputs0 g cf = Some inputs
    ∧ (∀ v, v ∈ inputs ↔
            IsOutput v = false
            ∧ ∃ f, f ∈ m_allPrimitiveFunctions cf ∧ v ∈ Inputs g f)
    ∧ (∀ f v, f ∈ m_allPrimitiveFunctions cf → v ∈ Inputs g f →
              v ∈ inputs
              ∨ (IsOutput v = true ∧ Owner v ∈ m_allPrimitiveFunctions cf)).
Proof.
  destruct (visit_order_spec g rootFunction ∅) as (V' & new & Hv & Hpost).
  destruct (DetermineInputs_of_visit_order g _ _ _ _ Hv)
    as (inputs & HD & _ & Hmem).
  pose proof (Collect_of_visit_order g _ _ _ _ Hv) as HC.
  destruct (visit_order_facts g _ _ _ _ Hv) as (_ & _ & HV' & _ & _ & Hcl & _).
  assert (∀ f, f ∈ V' ↔ f ∈ rootFunction :: new) as Hcalls
    by (intros f; rewrite HV'; set_solver).
  eexists _, inputs. unfold Create. rewrite HC. simpl.
  split_and!; [done|exact HD| |].
  - intros v. rewrite Hmem. by setoid_rewrite Hcalls.
  - intros f v Hf Hin. destruct (IsOutput v) eqn:Hout.
    + right. split; [done|]. apply (Hcl f); [by apply Hcalls|]. by exists v.
    + left. apply Hmem. split; [done|]. exists f. split; [by apply Hcalls|done].
Qed.

(** ** OnPlaceholdersReplaced: missing keys, order, repetition *)

Lemma OnPlaceholdersReplaced_loop_missing (g : gmap nat (list CNTKVariable))
    (placeholderReplacements : gmap CNTKVariable CNTKVariable)
    (l : list CNTKVariable) (W : gset nat) :
  (∃ p, p ∈ l ∧ placeholderReplacements !! p = None) →
  OnPlaceholdersReplaced_loop g placeholderReplacements l W
  = Throw out_of_range.
Proof.
  revert W. induction l as [|q l IH]; intros W (p & Hp & Hnone); simpl.
  { by apply elem_of_nil in Hp. }
  unfold OnPlaceholdersReplaced_step.
  destruct (placeholderReplacements !! q) as [r|] eqn:Hq; [|done].
  assert (∃ p', p' ∈ l ∧ placeholderReplacements !! p' = None) as Hrest.
  { apply elem_of_cons in Hp as [->|Hp]; [congruence|eauto]. }
  destruct (IsOutput r); simpl; [|by apply IH].
  destruct (Collect_closure g (Owner r)) as (W2 & -> & _). simpl. by apply IH.
Qed.

(** X6.  [OnPlaceholdersReplaced] raises [out_of_range] exactly when some
    replaced placeholder is not a key of the replacement map, and otherwise
    completes. *)
Theorem OnPlaceholdersReplaced_out_of_range_iff_missing_key
    (g : gmap nat (list CNTKVariable)) (cf : CompositeFunction)
    (placeholderReplacements : gmap CNTKVariable CNTKVariable)
    (replacedPlaceholders : gset CNTKVariable) :
  (OnPlaceholdersReplaced g cf placeholderReplacements replacedPlaceholders
   = Throw out_of_range
   ↔ ¬ replacedPlaceholders ⊆ dom placeholderReplacements)
  ∧ ((∃ cf', OnPlaceholdersReplaced g cf placeholderReplacements
               replacedPlaceholders = Ok cf')
     ↔ replacedPlaceholders ⊆ dom placeholderReplacements).
Proof.
  assert (replacedPlaceholders ⊆ dom placeholderReplacements →
          ∃ cf', OnPlaceholdersReplaced g cf placeholderReplacements
                   replacedPlaceholders = Ok cf') as Hok.
  { intros Hkeys.
    destruct (OnPlaceholdersReplaced_loop_spec g placeholderReplacements
                (elements replacedPlaceholders) (m_allPrimitiveFunctions cf))
      as (W' & Hloop & _).
    { intros p Hp%elem_of_elements. apply elem_of_dom. by apply Hkeys. }
    unfold OnPlaceholdersReplaced. rewrite Hloop. simpl. eauto. }
  assert (¬ replacedPlaceholders ⊆ dom placeholderReplacements →
          OnPlaceholdersReplaced g cf placeholderReplacements
            replacedPlaceholders = Throw out_of_range) as Hthrow.
  { intros Hkeys. unfold OnPlaceholdersReplaced.
    rewrite OnPlaceholdersReplaced_loop_missing; [done|].
    apply not_set_Forall_Exists in Hkeys as (p & Hp & Hnot); [|apply _].
    exists p. split; [by apply elem_of_elements|].
    by apply not_elem_of_dom. }
  split; split; try done.
  - intros HT Hkeys. destruct (Hok Hkeys) as [cf' Hcf']. congruence.
  - intros [cf' Hcf'].
    destruct (decide (replacedPlaceholders ⊆ dom placeholderReplacements))
      as [|Hn]; [done|].
    rewrite (Hthrow Hn) in Hcf'. done.
Qed.

Example OnPlaceholdersReplaced_missing_key :
  OnPlaceholdersReplaced grafted_graph graft_composite ∅ {[var_p]}
  = Throw out_of_range.
Proof. by vm_compute. Qed.

(** X7.  When every replaced placeholder is a key of the replacement map,
    the loop over the replaced placeholders completes and the owned set it
    leaves does not depend on the order in which the unordered set is
    iterated.  (With a missing key the source stops at the throw, and what
    it has inserted by then does depend on the order.) *)
Theorem OnPlaceholdersReplaced_loop_order_irrelevant
    (g : gmap nat (list CNTKVariable))
    (placeholderReplacements : gmap CNTKVariable CNTKVariable)
    (order1 order2 : list CNTKVariable) (allPrimitiveFunctions : gset nat) :
  order1 ≡ₚ order2 →
  (∀ p, p ∈ order1 → is_Some (placeholderReplacements !! p)) →
  ∃ owned,
    OnPlaceholdersReplaced_loop g placeholderReplacements order1
      allPrimitiveFunctions = Ok owned
    ∧ OnPlaceholdersReplaced_loop g placeholderReplacements order2
        allPrimitiveFunctions = Ok owned.
Proof.
  intros Hperm Hkeys.
  destruct (OnPlaceholdersReplaced_loop_spec g placeholderReplacements
              order1 allPrimitiveFunctions Hkeys) as (W1 & HL1 & HW1).
  destruct (OnPlaceholdersReplaced_loop_spec g placeholderReplacements
              order2 allPrimitiveFunctions) as (W2 & HL2 & HW2).
  { intros p Hp. apply Hkeys. by rewrite Hperm. }
  exists W1. split; [done|]. rewrite HL2. f_equal.
  apply set_eq. intros f. rewrite HW1, HW2. unfold grafted.
  by setoid_rewrite Hperm.
Qed.

Lemma OnPlaceholdersReplaced_loop_order_irrelevant_witness :
  [var_p; var_x] ≡ₚ [var_x; var_p]
  ∧ (∀ p, p ∈ [var_p; var_x] →
          is_Some (({[var_p := out_of 2; var_x := out_of 1]}
                      : gmap CNTKVariable CNTKVariable) !! p))
  ∧ ∃ owned,
      OnPlaceholdersReplaced_loop grafted_graph
        {[var_p := out_of 2; var_x := out_of 1]} [var_p; var_x] {[5]}
      = Ok owned
      ∧ OnPlaceholdersReplaced_loop grafted_graph
          {[var_p := out_of 2; var_x := out_of 1]} [var_x; var_p] {[5]}
        = Ok owned.
Proof.
  assert ([var_p; var_x] ≡ₚ [var_x; var_p]) as Hperm by apply Permutation_swap.
  assert (∀ p, p ∈ [var_p; var_x] →
               is_Some (({[var_p := out_of 2; var_x := out_of 1]}
                           : gmap CNTKVariable CNTKVariable) !! p)) as Hkeys.
  { intros p [->|[->|Hp%elem_of_nil]%elem_of_cons]%elem_of_cons;
      [by vm_compute; eexists..|done]. }
  split_and!; [exact Hperm|exact Hkeys|].
  apply (OnPlaceholdersReplaced_loop_order_irrelevant grafted_graph
           {[var_p := out_of 2; var_x := out_of 1]} _ _ {[5]} Hperm Hkeys).
Defined.

(** X8.  Running [OnPlaceholdersReplaced] again with the same arguments on
    the composite it produced changes nothing. *)
Theorem OnPlaceholdersReplaced_twice_is_once
    (g : gmap nat (list CNTKVariable)) (cf : CompositeFunction)
    (placeholderReplacements : gmap CNTKVariable CNTKVariable)
    (replacedPlaceholders : gset CNTKVariable) :
  replacedPlaceholders ⊆ dom placeholderReplacements →
  ∃ cf',
    OnPlaceholdersReplaced g cf placeholderReplacements replacedPlaceholders
    = Ok cf'
    ∧ OnPlaceholdersReplaced g cf' placeholderReplacements
        replacedPlaceholders = Ok cf'.
Proof.
  intros Hkeys.
  assert (∀ p, p ∈ elements replacedPlaceholders →
               is_Some (placeholderReplacements !! p)) as Hkeys'.
  { intros p Hp%elem_of_elements. apply elem_of_dom. by apply Hkeys. }
  destruct (OnPlaceholdersReplaced_loop_spec g placeholderReplacements
              (elements replacedPlaceholders) (m_allPrimitiveFunctions cf)
              Hkeys') as (W1 & Hloop1 & HW1).
  destruct (OnPlaceholdersReplaced_loop_spec g placeholderReplacements
              (elements replacedPlaceholders) W1 Hkeys')
    as (W2 & Hloop2 & HW2).
  assert (W2 = W1) as ->.
  { apply set_eq. intros f. rewrite HW2, HW1. tauto. }
  exists (set_allPrimitiveFunctions cf W1).
  unfold OnPlaceholdersReplaced. rewrite Hloop1. simpl. rewrite Hloop2. simpl.
  split; [done|]. by destruct cf.
Qed.

Lemma OnPlaceholdersReplaced_twice_is_once_witness :
  ({[var_p]} : gset CNTKVariable)
    ⊆ dom ({[var_p := out_of 2]} : gmap CNTKVariable CNTKVariable)
  ∧ ∃ cf',
      OnPlaceholdersReplaced grafted_graph graft_composite
        {[var_p := out_of 2]} {[var_p]} = Ok cf'
      ∧ OnPlaceholdersReplaced grafted_graph cf'
          {[var_p := out_of 2]} {[var_p]} = Ok cf'.
Proof.
  assert (({[var_p]} : gset CNTKVariable)
            ⊆ dom ({[var_p := out_of 2]} : gmap CNTKVariable CNTKVariable))
    as Hkeys by (apply (bool_decide_unpack _); by vm_compute).
  split; [exact Hkeys|].
  apply (OnPlaceholdersReplaced_twice_is_once grafted_graph graft_composite
           {[var_p := out_of 2]} {[var_p]} Hkeys).
Defined.

(** X9.  When the owned set contains the root and only functions the root
    still reaches, every edge that leaves it leads into it or to the owner
    of an Output that replaced a placeholder, and the root reaches each
    such owner, then the owned set after [OnPlaceholdersReplaced] is the
    set that [Create] collects from the root on the same graph. *)
Theorem OnPlaceholdersReplaced_agrees_with_Create
    (g : gmap nat (list CNTKVariable)) (cf : CompositeFunction)
    (placeholderReplacements : gmap CNTKVariable CNTKVariable)
    (replacedPlaceholders : gset CNTKVariable) (name uid : string) :
  replacedPlaceholders ⊆ dom placeholderReplacements →
  RootFunction cf ∈ m_allPrimitiveFunctions cf →
  (∀ f, f ∈ m_allPrimitiveFunctions cf → reachable g (RootFunction cf) f) →
  (∀ f c, f ∈ m_allPrimitiveFunctions cf → edge g f c →
          c ∈ m_allPrimitiveFunctions cf
          ∨ ∃ p r, p ∈ replacedPlaceholders
                   ∧ placeholderReplacements !! p = Some r
                   ∧ IsOutput r = true ∧ Owner r = c) →
  (∀ p r, p ∈ replacedPlaceholders → placeholderReplacements !! p = Some r →
          IsOutput r = true → reachable g (RootFunction cf) (Owner r)) →
  ∃ cf' created,
    OnPlaceholdersReplaced g cf placeholderReplacements replacedPlaceholders
    = Ok cf'
    ∧ Create g (RootFunction cf) name uid = Some created
    ∧ m_allPrimitiveFunctions cf' = m_allPrimitiveFunctions created.
Proof.
  intros Hkeys Hroot Hold Hedges Hwired.
  destruct (OnPlaceholdersReplaced_loop_spec g placeholderReplacements
              (elements replacedPlaceholders) (m_allPrimitiveFunctions cf))
    as (W' & Hloop & HW').
  { intros p Hp%elem_of_elements. apply elem_of_dom. by apply Hkeys. }
  destruct (Collect_closure g (RootFunction cf)) as (W & HC & HW).
  eexists _, _. unfold OnPlaceholdersReplaced, Create.
  rewrite Hloop, HC. simpl. split_and!; [done|done|]. simpl.
  apply set_eq. intros f. rewrite HW. split.
  - rewrite HW'.
    intros [Hf|(p & r & Hp%elem_of_elements & Hr & Hout & Hreach)];
      [by apply Hold|].
    etrans; [by eapply Hwired|done].
  - apply reachable_closed with (g := g); [apply HW'; by left|].
    intros x c Hx He. apply HW'. apply HW' in Hx.
    destruct Hx as [Hx|(p & r & Hp & Hr & Hout & Hreach)].
    + destruct (Hedges x c Hx He) as [Hc|(p & r & Hp & Hr & Hout & <-)];
        [by left|].
      right. exists p, r. split_and!; [by apply elem_of_elements|done..|].
      apply rtc_refl.
    + right. exists p, r. split_and!; [done..|]. by eapply rtc_r.
Qed.

Lemma OnPlaceholdersReplaced_agrees_with_Create_witness :
  ({[var_p]} : gset CNTKVariable)
    ⊆ dom ({[var_p := out_of 2]} : gmap CNTKVariable CNTKVariable)
  ∧ RootFunction graft_composite ∈ m_allPrimitiveFunctions graft_composite
  ∧ (∀ f, f ∈ m_allPrimitiveFunctions graft_composite →
          reachable grafted_graph (RootFunction graft_composite) f)
  ∧ (∀ f c, f ∈ m_allPrimitiveFunctions graft_composite →
            edge grafted_graph f c →
            c ∈ m_allPrimitiveFunctions graft_composite
            ∨ ∃ p r, p ∈ ({[var_p]} : gset CNTKVariable)
                     ∧ ({[var_p := out_of 2]}
                          : gmap CNTKVariable CNTKVariable) !! p = Some r
                     ∧ IsOutput r = true ∧ Owner r = c)
  ∧ (∀ p r, p ∈ ({[var_p]} : gset CNTKVariable) →
            ({[var_p := out_of 2]} : gmap CNTKVariable CNTKVariable) !! p
            = Some r →
            IsOutput r = true →
            reachable grafted_graph (RootFunction graft_composite) (Owner r))
  ∧ ∃ cf' created,
      OnPlaceholdersReplaced grafted_graph graft_composite
        {[var_p := out_of 2]} {[var_p]} = Ok cf'
      ∧ Create grafted_graph (RootFunction graft_composite) "" ""
        = Some created
      ∧ m_allPrimitiveFunctions cf' = m_allPrimitiveFunctions created.
Proof.
  assert (edge grafted_graph 5 2) as He52.
  { exists (out_of 2). split_and!; [|done..].
    change (Inputs grafted_graph 5) with [out_of 2; var_x]. set_solver. }
  assert (({[var_p]} : gset CNTKVariable)
            ⊆ dom ({[var_p := out_of 2]} : gmap CNTKVariable CNTKVariable))
    as H1 by (apply (bool_decide_unpack _); by vm_compute).
  assert (RootFunction graft_composite
            ∈ m_allPrimitiveFunctions graft_composite) as H2
    by (apply (bool_decide_unpack _); by vm_compute).
  assert (∀ f, f ∈ m_allPrimitiveFunctions graft_composite →
               reachable grafted_graph (RootFunction graft_composite) f) as H3.
  { intros f Hf. simpl in Hf. apply elem_of_singleton in Hf as ->.
    apply rtc_refl. }
  assert (∀ f c, f ∈ m_allPrimitiveFunctions graft_composite →
            edge grafted_graph f c →
            c ∈ m_allPrimitiveFunctions graft_composite
            ∨ ∃ p r, p ∈ ({[var_p]} : gset CNTKVariable)
                     ∧ ({[var_p := out_of 2]}
                          : gmap CNTKVariable CNTKVariable) !! p = Some r
                     ∧ IsOutput r = true ∧ Owner r = c) as H4.
  { intros f c Hf (v & Hv & Hout & <-).
    simpl in Hf. apply elem_of_singleton in Hf as ->.
    change (Inputs grafted_graph 5) with [out_of 2; var_x] in Hv.
    right. exists var_p, (out_of 2).
    apply elem_of_cons in Hv as [->|Hv].
    - split_and!; [set_solver|by apply lookup_singleton_eq|done|done].
    - apply list_elem_of_singleton in Hv as ->. done. }
  assert (∀ p r, p ∈ ({[var_p]} : gset CNTKVariable) →
            ({[var_p := out_of 2]} : gmap CNTKVariable CNTKVariable) !! p
            = Some r →
            IsOutput r = true →
            reachable grafted_graph (RootFunction graft_composite) (Owner r))
    as H5.
  { intros p r ->%elem_of_singleton Hr _.
    rewrite lookup_singleton_eq in Hr. injection Hr as <-.
    by apply rtc_once. }
  split_and!; [exact H1|exact H2|exact H3|exact H4|exact H5|].
  apply (OnPlaceholdersReplaced_agrees_with_Create grafted_graph
           graft_composite {[var_p := out_of 2]} {[var_p]} "" ""
           H1 H2 H3 H4 H5).
Defined.

(** ** NextAutoGeneratedDynamicAxis *)

Lemma String_app_inj_l (p s1 s2 : string) : p +:+ s1 = p +:+ s2 → s1 = s2.
Proof. induction p as [|c p IH]; simpl; [done|]. intros [= H]. by apply IH. Qed.

Lemma auto_generated_name_inj (c1 c2 : N) :
  s_autoGeneratedDynamicAxisNamePrefix +:+ to_wstring c1
  = s_autoGeneratedDynamicAxisNamePrefix +:+ to_wstring c2 →
  c1 = c2.
Proof. intros Hs%String_app_inj_l. by apply (inj pretty) in Hs. Qed.

Lemma mod_UINT_MODULUS_inj (c i j : N) :
  (i < UINT_MODULUS)%N → (j < UINT_MODULUS)%N →
  ((c + i) mod UINT_MODULUS = (c + j) mod UINT_MODULUS)%N → i = j.
Proof.
  unfold UINT_MODULUS. intros Hi Hj Hmod.
  pose proof (N.Div0.div_mod (c + i) 4294967296) as Hdi.
  pose proof (N.Div0.div_mod (c + j) 4294967296) as Hdj.
  rewrite Hmod in Hdi. lia.
Qed.

Section AutoGeneratedAxes.
Context `{AxisAPI}.

Lemma NextAutoGeneratedDynamicAxes_S n counter :
  NextAutoGeneratedDynamicAxes (S n) counter
  = ((NextAutoGeneratedDynamicAxis counter).1
       :: (NextAutoGeneratedDynamicAxes n
             (NextAutoGeneratedDynamicAxis counter).2).1,
     (NextAutoGeneratedDynamicAxes n
        (NextAutoGeneratedDynamicAxis counter).2).2).
Proof.
  simpl.
  by destruct (NextAutoGeneratedDynamicAxes n
                 ((counter + 1) mod UINT_MODULUS)%N).
Qed.

Lemma UINT_MODULUS_shift (counter k : N) :
  (((counter + 1) mod UINT_MODULUS + k) mod UINT_MODULUS
   = (counter + (1 + k)) mod UINT_MODULUS)%N.
Proof.
  rewrite N.Div0.add_mod_idemp_l.
  by replace (counter + 1 + k)%N with (counter + (1 + k))%N by lia.
Qed.

Lemma NextAutoGeneratedDynamicAxes_names n counter :
  (counter < UINT_MODULUS)%N →
  length (NextAutoGeneratedDynamicAxes n counter).1 = n
  ∧ ∀ i axis,
      (NextAutoGeneratedDynamicAxes n counter).1 !! i = Some axis →
      axis = AxisOfName
               (s_autoGeneratedDynamicAxisNamePrefix
                +:+ to_wstring ((counter + N.of_nat i) mod UINT_MODULUS)%N).
Proof.
  revert counter. induction n as [|n IH]; intros counter Hc; [done|].
  rewrite NextAutoGeneratedDynamicAxes_S.
  assert ((counter + 1) mod UINT_MODULUS < UINT_MODULUS)%N as Hc1
    by (by apply N.mod_upper_bound).
  destruct (IH _ Hc1) as (Hlen & Hnames).
  cbn [fst snd NextAutoGeneratedDynamicAxis].
  split.
  - simpl. by rewrite Hlen.
  - intros [|i] axis; simpl.
    + intros [= <-]. rewrite N.add_0_r, N.mod_small; done.
    + intros Hi. rewrite (Hnames i axis Hi), UINT_MODULUS_shift.
      by replace (1 + N.of_nat i)%N with (N.of_nat (S i)) by lia.
Qed.

(** X10.  When an axis keeps the name it was constructed from, up to
    [2^32] consecutive calls of [NextAutoGeneratedDynamicAxis] return axes
    with pairwise different names. *)
Theorem NextAutoGeneratedDynamicAxis_names_are_distinct (n : nat) (counter : N) :
  (∀ name, Name (AxisOfName name) = name) →
  (counter < UINT_MODULUS)%N →
  (N.of_nat n ≤ UINT_MODULUS)%N →
  NoDup (Name <$> (NextAutoGeneratedDynamicAxes n counter).1).
Proof.
  intros Hname Hc Hn.
  destruct (NextAutoGeneratedDynamicAxes_names n counter Hc)
    as (Hlen & Hnames).
  apply NoDup_alt. intros i j name Hi Hj.
  rewrite list_lookup_fmap in Hi, Hj.
  destruct ((NextAutoGeneratedDynamicAxes n counter).1 !! i) as [ai|] eqn:Ei;
    [|done].
  destruct ((NextAutoGeneratedDynamicAxes n counter).1 !! j) as [aj|] eqn:Ej;
    [|done].
  pose proof (lookup_lt_Some _ _ _ Ei) as Hilt.
  pose proof (lookup_lt_Some _ _ _ Ej) as Hjlt.
  rewrite Hlen in Hilt, Hjlt.
  apply Hnames in Ei, Ej. subst ai aj. simpl in Hi, Hj.
  rewrite Hname in Hi, Hj. rewrite <- Hj in Hi. apply (inj Some) in Hi.
  apply auto_generated_name_inj in Hi.
  apply mod_UINT_MODULUS_inj in Hi; lia.
Qed.

(** X11.  Started with the counter below [2^32], [n] consecutive calls
    leave the counter at [(counter + n) mod 2^32], and call number [i]
    (from zero) returns the axis constructed from the prefix followed by
    the decimal digits of [(counter + i) mod 2^32]: the counter wraps, and
    calls [2^32] apart construct the same name. *)
Theorem NextAutoGeneratedDynamicAxis_counter_wraps (n : nat) (counter : N) :
  (counter < UINT_MODULUS)%N →
  (NextAutoGeneratedDynamicAxes n counter).2
  = ((counter + N.of_nat n) mod UINT_MODULUS)%N
  ∧ length (NextAutoGeneratedDynamicAxes n counter).1 = n
  ∧ ∀ i axis,
      (NextAutoGeneratedDynamicAxes n counter).1 !! i = Some axis →
      axis = AxisOfName
               (s_autoGeneratedDynamicAxisNamePrefix
                +:+ to_wstring ((counter + N.of_nat i) mod UINT_MODULUS)%N).
Proof.
  intros Hc. split; [|by apply NextAutoGeneratedDynamicAxes_names].
  revert counter Hc. induction n as [|n IH]; intros counter Hc.
  { simpl. rewrite N.add_0_r. symmetry. by apply N.mod_small. }
  rewrite NextAutoGeneratedDynamicAxes_S.
  cbn [fst snd NextAutoGeneratedDynamicAxis].
  rewrite IH by (by apply N.mod_upper_bound).
  rewrite UINT_MODULUS_shift.
  by replace (1 + N.of_nat n)%N with (N.of_nat (S n)) by lia.
Qed.
End AutoGeneratedAxes.

Lemma NextAutoGeneratedDynamicAxis_names_are_distinct_witness :
  (∀ name, @Name NamedAxes (AxisOfName name) = name)
  ∧ (4294967294 < UINT_MODULUS)%N
  ∧ (N.of_nat 4 ≤ UINT_MODULUS)%N
  ∧ NoDup (@Name NamedAxes
             <$> (@NextAutoGeneratedDynamicAxes NamedAxes 4 4294967294).1).
Proof.
  assert (∀ name, @Name NamedAxes (AxisOfName name) = name) as Hname by done.
  assert (4294967294 < UINT_MODULUS)%N as Hc by reflexivity.
  assert (N.of_nat 4 ≤ UINT_MODULUS)%N as Hn by (by vm_compute).
  split_and!; [exact Hname|exact Hc|exact Hn|].
  apply (@NextAutoGeneratedDynamicAxis_names_are_distinct NamedAxes
           4 4294967294 Hname Hc Hn).
Defined.

Lemma NextAutoGeneratedDynamicAxis_counter_wraps_witness :
  (4294967294 < UINT_MODULUS)%N
  ∧ (@NextAutoGeneratedDynamicAxes NamedAxes 4 4294967294).2
    = ((4294967294 + N.of_nat 4) mod UINT_MODULUS)%N
  ∧ length (@NextAutoGeneratedDynamicAxes NamedAxes 4 4294967294).1 = 4
  ∧ ∀ i axis,
      (@NextAutoGeneratedDynamicAxes NamedAxes 4 4294967294).1 !! i
      = Some axis →
      axis = @AxisOfName NamedAxes
               (s_autoGeneratedDynamicAxisNamePrefix
                +:+ to_wstring
                      ((4294967294 + N.of_nat i) mod UINT_MODULUS)%N).
Proof.
  assert (4294967294 < UINT_MODULUS)%N as Hc by reflexivity.
  split; [exact Hc|].
  apply (@NextAutoGeneratedDynamicAxis_counter_wraps NamedAxes
           4 4294967294 Hc).
Defined.

Example NextAutoGeneratedDynamicAxis_across_the_wrap :
  @NextAutoGeneratedDynamicAxes NamedAxes 4 4294967294
  = (["autoGeneratedDynamicAxis_4294967294";
      "autoGeneratedDynamicAxis_4294967295";
      "autoGeneratedDynamicAxis_0";
      "autoGeneratedDynamicAxis_1"], 2%N).
Proof. by vm_compute. Qed.

(** ** Dynamic-axis names: what the two helpers do to each other *)

Section DynamicAxesMore.
Context `{AxisAPI}.

Lemma Axes_eqb_length (a b : list Axis) :
  Axes_eqb a b = true → length a = length b.
Proof.
  revert b. induction a as [|x a IH]; intros [|y b]; simpl; try done.
  intros [_ Hab]%andb_true_iff. f_equal. by apply IH.
Qed.

Lemma DynamicAxesFromInternalDynamicAxisName_cases (name : string) :
  DynamicAxesFromInternalDynamicAxisName name
  = if String.prefix InternalDefaultDynamicAxisName name
    then [DefaultDynamicAxis; DefaultBatchAxis]
    else if String.prefix InternalNoSequenceAxisName name
    then [DefaultBatchAxis]
    else [AxisOfName name; DefaultBatchAxis].
Proof.
  unfold DynamicAxesFromInternalDynamicAxisName. by rewrite !substr_prefix.
Qed.

Lemma DynamicAxesFromInternalDynamicAxisName_length (name : string) :
  1 ≤ length (DynamicAxesFromInternalDynamicAxisName name) ≤ 2.
Proof.
  rewrite DynamicAxesFromInternalDynamicAxisName_cases.
  destruct (String.prefix InternalDefaultDynamicAxisName name);
    [|destruct (String.prefix InternalNoSequenceAxisName name)]; simpl; lia.
Qed.

(** X12.  [DynamicAxesFromInternalDynamicAxisName] returns one or two
    axes, the last of which is the default batch axis, and
    [InternalDynamicAxisNameFromDynamicAxes] never raises an error on what
    it returns. *)
Theorem DynamicAxesFromInternalDynamicAxisName_shape (name : string) :
  1 ≤ length (DynamicAxesFromInternalDynamicAxisName name) ≤ 2
  ∧ last (DynamicAxesFromInternalDynamicAxisName name) = Some DefaultBatchAxis
  ∧ ∃ name', InternalDynamicAxisNameFromDynamicAxes
               (DynamicAxesFromInternalDynamicAxisName name) = Ok name'.
Proof.
  split; [apply DynamicAxesFromInternalDynamicAxisName_length|].
  rewrite DynamicAxesFromInternalDynamicAxisName_cases.
  unfold InternalDynamicAxisNameFromDynamicAxes.
  destruct (String.prefix InternalDefaultDynamicAxisName name);
    [|destruct (String.prefix InternalNoSequenceAxisName name)];
    (split; [done|]);
    repeat (match goal with
            | |- context [if ?b then _ else _] => destruct b
            end); eauto.
Qed.

(** X13.  Of a list of three or more dynamic axes only the first counts:
    [InternalDynamicAxisNameFromDynamicAxes] returns the name of the first
    axis, and no internal name gives the list back. *)
Theorem InternalDynamicAxisName_of_long_list_keeps_first_axis
    (axis0 : Axis) (rest : list Axis) :
  2 ≤ length rest →
  InternalDynamicAxisNameFromDynamicAxes (axis0 :: rest) = Ok (Name axis0)
  ∧ ∀ name,
      Axes_eqb (DynamicAxesFromInternalDynamicAxisName name) (axis0 :: rest)
      = false.
Proof.
  intros Hlen. split.
  - unfold InternalDynamicAxisNameFromDynamicAxes.
    destruct (Axes_eqb (axis0 :: rest) [DefaultBatchAxis]) eqn:E1.
    { apply Axes_eqb_length in E1. simpl in E1. lia. }
    destruct (Axes_eqb (axis0 :: rest) [DefaultDynamicAxis; DefaultBatchAxis])
      eqn:E2; [|done].
    apply Axes_eqb_length in E2. simpl in E2. lia.
  - intros name.
    destruct (Axes_eqb (DynamicAxesFromInternalDynamicAxisName name)
                (axis0 :: rest)) eqn:E; [|done].
    apply Axes_eqb_length in E.
    pose proof (DynamicAxesFromInternalDynamicAxisName_length name) as Hshape.
    simpl in E. lia.
Qed.

(** X14.  When [operator==] of [Axis] is reflexive, the internal name of
    the axes made from a name is: the default name for every name that
    begins with the default name; the no-sequence name for every other
    name that begins with the no-sequence name; and otherwise the name of
    the axis constructed from the given name, unless that axis equals the
    default dynamic axis, which gives the default name. *)
Theorem InternalDynamicAxisName_of_axes_from_name (name : string) :
  (∀ a, Axis_eqb a a = true) →
  InternalDynamicAxisNameFromDynamicAxes
    (DynamicAxesFromInternalDynamicAxisName name)
  = Ok (if String.prefix InternalDefaultDynamicAxisName name
        then InternalDefaultDynamicAxisName
        else if String.prefix InternalNoSequenceAxisName name
        then InternalNoSequenceAxisName
        else if Axis_eqb (AxisOfName name) DefaultDynamicAxis
        then InternalDefaultDynamicAxisName
        else Name (AxisOfName name)).
Proof.
  intros Hrefl. rewrite DynamicAxesFromInternalDynamicAxisName_cases.
  unfold InternalDynamicAxisNameFromDynamicAxes.
  destruct (String.prefix InternalDefaultDynamicAxisName name);
    [|destruct (String.prefix InternalNoSequenceAxisName name)]; simpl.
  - by rewrite andb_false_r, !Hrefl.
  - by rewrite Hrefl.
  - rewrite andb_false_r, Hrefl, andb_true_r.
    by destruct (Axis_eqb (AxisOfName name) DefaultDynamicAxis).
Qed.
End DynamicAxesMore.

Lemma InternalDynamicAxisName_of_long_list_keeps_first_axis_witness :
  2 ≤ length ["time"; "defaultBatchAxis"]
  ∧ @InternalDynamicAxisNameFromDynamicAxes NamedAxes
      ["speech"; "time"; "defaultBatchAxis"] = Ok "speech"
  ∧ ∀ name,
      @Axes_eqb NamedAxes
        (@DynamicAxesFromInternalDynamicAxisName NamedAxes name)
        ["speech"; "time"; "defaultBatchAxis"] = false.
Proof.
  assert (2 ≤ length ["time"; "defaultBatchAxis"]) as Hlen by (simpl; lia).
  split; [exact Hlen|].
  apply (@InternalDynamicAxisName_of_long_list_keeps_first_axis NamedAxes
           "speech" ["time"; "defaultBatchAxis"] Hlen).
Defined.

Lemma InternalDynamicAxisName_of_axes_from_name_witness :
  (∀ a, @Axis_eqb NamedAxes a a = true)
  ∧ @InternalDynamicAxisNameFromDynamicAxes NamedAxes
      (@DynamicAxesFromInternalDynamicAxisName NamedAxes "*speech")
    = Ok (if String.prefix (@InternalDefaultDynamicAxisName NamedAxes) "*speech"
          then @InternalDefaultDynamicAxisName NamedAxes
          else if String.prefix (@InternalNoSequenceAxisName NamedAxes)
                    "*speech"
          then @InternalNoSequenceAxisName NamedAxes
          else if @Axis_eqb NamedAxes (AxisOfName "*speech")
                    DefaultDynamicAxis
          then @InternalDefaultDynamicAxisName NamedAxes
          else @Name NamedAxes (AxisOfName "*speech")).
Proof.
  assert (∀ a, @Axis_eqb NamedAxes a a = true) as Hrefl
    by exact String.eqb_refl.
  split; [exact Hrefl|].
  apply (@InternalDynamicAxisName_of_axes_from_name NamedAxes "*speech" Hrefl).
Defined.

Example reserved_prefix_is_not_round_tripped :
  @InternalDynamicAxisNameFromDynamicAxes NamedAxes
    (@DynamicAxesFromInternalDynamicAxisName NamedAxes "*speech") = Ok "*"
  ∧ @InternalDynamicAxisNameFromDynamicAxes NamedAxes
      (@DynamicAxesFromInternalDynamicAxisName NamedAxes "__noSequenceAxis2")
    = Ok "__noSequenceAxis"
  ∧ @InternalDynamicAxisNameFromDynamicAxes NamedAxes
      (@DynamicAxesFromInternalDynamicAxisName NamedAxes "speech")
    = Ok "speech".
Proof. by vm_compute. Qed.

(** ** The order in which functions list their inputs *)

Lemma edge_Permutation (g1 g2 : gmap nat (list CNTKVariable)) :
  (∀ f, Inputs g1 f ≡ₚ Inputs g2 f) → ∀ f c, edge g1 f c ↔ edge g2 f c.
Proof.
  intros Hperm f c. unfold edge. by setoid_rewrite (Hperm f).
Qed.

Lemma reachable_Permutation (g1 g2 : gmap nat (list CNTKVariable)) :
  (∀ f, Inputs g1 f ≡ₚ Inputs g2 f) →
  ∀ root f, reachable g1 root f ↔ reachable g2 root f.
Proof.
  intros Hperm root f. unfold reachable.
  split; apply rtc_subrel; intros a b; by apply edge_Permutation.
Qed.

Lemma DetermineInputs_from_empty (g : gmap nat (list CNTKVariable)) root :
  ∃ inputs,
    DetermineInputs g root ∅ = Some inputs
    ∧ NoDup inputs
    ∧ ∀ v, v ∈ inputs ↔
           IsOutput v = false ∧ ∃ f, reachable g root f ∧ v ∈ Inputs g f.
Proof.
  destruct (visit_order_spec g root ∅) as (V' & new & Hv & _).
  destruct (DetermineInputs_of_visit_order g _ _ _ _ Hv)
    as (inputs & HD & Hfold & Hmem).
  destruct (visit_order_facts g _ _ _ _ Hv) as (_ & _ & _ & _ & Hreach & _).
  exists inputs. split_and!; [done| |].
  - rewrite Hfold, DetermineInputs_functor_fold.
    by destruct (DetermineInputs_step_inv
                   (encountered_inputs g (root :: new))) as (_ & Hnd & _).
  - intros v. rewrite Hmem. split.
    + intros [Hout (f & Hf & Hin)]. eauto.
    + intros [Hout (f & Hf & Hin)].
      pose proof (visit_order_complete g _ _ _ Hv f Hf). eauto.
Qed.

(** X15.  Two graphs whose functions list the same inputs in possibly
    different orders give the same collected set from every root, and
    [DetermineInputs] returns the same variables for both, possibly in a
    different order. *)
Theorem input_order_changes_only_the_order_of_inputs
    (g1 g2 : gmap nat (list CNTKVariable)) (rootFunction : nat) :
  (∀ f, Inputs g1 f ≡ₚ Inputs g2 f) →
  Collect g1 rootFunction ∅ = Collect g2 rootFunction ∅
  ∧ ∃ inputs1 inputs2,
      DetermineInputs g1 rootFunction ∅ = Some inputs1
      ∧ DetermineInputs g2 rootFunction ∅ = Some inputs2
      ∧ inputs1 ≡ₚ inputs2.
Proof.
  intros Hperm. split.
  - destruct (Collect_closure g1 rootFunction) as (W1 & -> & HW1).
    destruct (Collect_closure g2 rootFunction) as (W2 & -> & HW2).
    f_equal. apply set_eq. intros f. rewrite HW1, HW2.
    by apply reachable_Permutation.
  - destruct (DetermineInputs_from_empty g1 rootFunction)
      as (inputs1 & HD1 & Hnd1 & Hmem1).
    destruct (DetermineInputs_from_empty g2 rootFunction)
      as (inputs2 & HD2 & Hnd2 & Hmem2).
    exists inputs1, inputs2. split_and!; [done..|].
    apply NoDup_Permutation; [done..|].
    intros v. rewrite Hmem1, Hmem2.
    setoid_rewrite (reachable_Permutation g1 g2 Hperm).
    split; intros [Hout (f & Hf & Hin)]; (split; [done|]); exists f;
      (split; [done|]); [by rewrite <- (Hperm f)|by rewrite (Hperm f)].
Qed.

(** The Add/Mul graph with the inputs of function 1 listed in the other
    order. *)
Lemma input_order_changes_only_the_order_of_inputs_witness :
  (∀ f, Inputs add_mul_graph f
        ≡ₚ Inputs (<[1 := [var_y; var_x]]> add_mul_graph) f)
  ∧ Collect add_mul_graph 2 ∅
    = Collect (<[1 := [var_y; var_x]]> add_mul_graph) 2 ∅
  ∧ ∃ inputs1 inputs2,
      DetermineInputs add_mul_graph 2 ∅ = Some inputs1
      ∧ DetermineInputs (<[1 := [var_y; var_x]]> add_mul_graph) 2 ∅
        = Some inputs2
      ∧ inputs1 ≡ₚ inputs2.
Proof.
  assert (∀ f, Inputs add_mul_graph f
               ≡ₚ Inputs (<[1 := [var_y; var_x]]> add_mul_graph) f) as Hperm.
  { intros f. unfold Inputs. destruct (decide (f = 1)) as [->|Hne].
    - rewrite lookup_insert_eq.
      change (add_mul_graph !! 1) with (Some [var_x; var_y]).
      apply Permutation_swap.
    - by rewrite lookup_insert_ne. }
  split; [exact Hperm|].
  apply (input_order_changes_only_the_order_of_inputs add_mul_graph
           (<[1 := [var_y; var_x]]> add_mul_graph) 2 Hperm).
Defined.

Example DetermineInputs_depends_on_input_order :
  DetermineInputs add_mul_graph 2 ∅ = Some [var_w; var_x; var_y]
  ∧ DetermineInputs (<[1 := [var_y; var_x]]> add_mul_graph) 2 ∅
    = Some [var_w; var_y; var_x].
Proof. by vm_compute. Qed.
